(** * ip2LocationDict: the IP-to-location range table of [ipToFullLocation.py]

    A shallow embedding of class [IpFullLocation] (Python 2: the constructor
    prints with a backquote [repr], and [lookupIP] compares a [str] with an
    [int]) together with the properties of its loader and of its lookup.

    Layout: the Python built-ins the class calls ([Py]), the class itself
    ([IpFullLocation]), specification-side vocabulary, then the lemmas. *)

From Stdlib Require Import ZArith NArith Ascii String List Lia Bool.
From stdpp Require Import base tactics option list gmap strings.

Local Open Scope Z_scope.

(* ===================================================================== *)
(** ** Python built-ins used by the class                                 *)
(* ===================================================================== *)

Module Py.

(** A Python 2 [str] is a byte string. *)
Abbreviation str := (list ascii).

(** String literals of the source are written [lit s]. *)
Definition lit (s : string) : str := list_ascii_of_string s.

(** Exceptions the class can raise. [UnboundLocalError] is what reading
    [ipRangeChain] would raise had the [while] loop ended without
    binding it. *)
Inductive exn := KeyError | ValueError | IndexError | UnboundLocalError.

(** Outcome of running a method: a value, an exception that leaves the
    method, or [OutOfFuel] when the model's loop budget is used up (the
    Python loop itself has no budget). *)
Inductive outcome (A : Type) :=
| Return (a : A)
| Raise (e : exn)
| OutOfFuel.
Arguments Return {A} a.
Arguments Raise {A} e.
Arguments OutOfFuel {A}.

Definition bind {A B} (m : outcome A) (k : A -> outcome B) : outcome B :=
  match m with
  | Return a => k a
  | Raise e => Raise e
  | OutOfFuel => OutOfFuel
  end.

(** A built-in that fails does so with [ValueError]. *)
Definition or_ValueError {A} (o : option A) : outcome A :=
  match o with
  | Some a => Return a
  | None => Raise ValueError
  end.

(** *** Characters *)

Definition is_digit (c : ascii) : bool :=
  let n := N_of_ascii c in ((48 <=? n) && (n <=? 57))%N.

Definition digit_val (c : ascii) : N := (N_of_ascii c - 48)%N.

Definition digit_char (d : N) : ascii := ascii_of_N (48 + d)%N.

(** C [isspace] in the "C" locale: space, \t, \n, \v, \f, \r. *)
Definition is_space (c : ascii) : bool :=
  let n := N_of_ascii c in ((n =? 32) || ((9 <=? n) && (n <=? 13)))%N.

Definition is_sign (c : ascii) : bool :=
  bool_decide (c = "+"%char) || bool_decide (c = "-"%char).

Definition to_lower (c : ascii) : ascii :=
  let n := N_of_ascii c in
  if ((65 <=? n) && (n <=? 90))%N then ascii_of_N (n + 32)%N else c.

(** *** [s.strip(...)] *)

Fixpoint lstrip (p : ascii -> bool) (s : str) : str :=
  match s with
  | c :: s' => if p c then lstrip p s' else s
  | [] => []
  end.

Definition rstrip (p : ascii -> bool) (s : str) : str :=
  rev (lstrip p (rev s)).

Definition strip_by (p : ascii -> bool) (s : str) : str :=
  rstrip p (lstrip p s).

(** The double-quote character, code 34. *)
Definition dquote : ascii := ascii_of_N 34.

(** [s.strip(chars)] removes leading and trailing characters that occur
    in [chars]. *)
Definition strip (chars : str) (s : str) : str :=
  strip_by (fun c => bool_decide (c ∈ chars)) s.

(** [s.strip(q)] where [q] is the one-character string holding a
    double quote. *)
Definition strip_quote (s : str) : str := strip [dquote] s.

(** *** [s.split(sep)] for a one-character separator: never empty,
    [''.split('.') == ['']]. *)
Fixpoint split (sep : ascii) (s : str) : list str :=
  match s with
  | [] => [[]]
  | c :: s' =>
      if bool_decide (c = sep) then [] :: split sep s'
      else match split sep s' with
           | h :: t => (c :: h) :: t
           | [] => [[c]]
           end
  end.

(** *** [s.zfill(width)]: pad with zeros on the left; a leading sign
    stays in front of the padding. *)
Definition zfill (width : nat) (s : str) : str :=
  if (width <=? length s)%nat then s
  else
    let fill := replicate (width - length s) "0"%char in
    match s with
    | c :: s' => if is_sign c then c :: fill ++ s' else fill ++ s
    | [] => fill
    end.

(** *** [str(n)] for an [int] or [long]: decimal, no suffix. *)
Fixpoint digits_aux (fuel : nat) (n : N) (acc : str) : str :=
  match fuel with
  | O => acc
  | S f =>
      let acc' := digit_char (n mod 10)%N :: acc in
      if (n / 10 =? 0)%N then acc' else digits_aux f (n / 10)%N acc'
  end.

Definition str_N (n : N) : str :=
  digits_aux (S (N.to_nat (N.size n))) n [].

Definition str_of_int (z : Z) : str :=
  if z <? 0 then "-"%char :: str_N (Z.to_N (- z)) else str_N (Z.to_N z).

(** *** [int(s)] for a [str], base 10: surrounding white space, an
    optional sign, then one or more digits. *)
Fixpoint digits_value (acc : N) (s : str) : option N :=
  match s with
  | [] => Some acc
  | c :: s' =>
      if is_digit c then digits_value (acc * 10 + digit_val c)%N s'
      else None
  end.

Definition parse_digits (s : str) : option N :=
  match s with
  | [] => None
  | _ => digits_value 0%N s
  end.

Definition int (s : str) : option Z :=
  match strip_by is_space s with
  | c :: ds =>
      if bool_decide (c = "-"%char) then
        (fun n => - Z.of_N n) <$> parse_digits ds
      else if bool_decide (c = "+"%char) then
        Z.of_N <$> parse_digits ds
      else Z.of_N <$> parse_digits (c :: ds)
  | [] => None
  end.

(** *** [float(s)] for a [str].

    A float value is represented by the decimal numeral it was read from
    ([mant * 10^exp10], or an infinity or NaN); rounding to binary64 is
    not modelled. The class only converts and echoes these values. *)
Inductive floatval :=
| FNan
| FInf (neg : bool)
| FDec (neg : bool) (mant : N) (exp10 : Z).

Fixpoint span_digits (s : str) : str * str :=
  match s with
  | c :: s' =>
      if is_digit c then let '(d, r) := span_digits s' in (c :: d, r)
      else ([], s)
  | [] => ([], [])
  end.

(** The exponent part: empty, or [e]/[E], an optional sign and digits. *)
Definition float_exponent (s : str) : option Z :=
  match s with
  | [] => Some 0
  | c :: s' =>
      if bool_decide (to_lower c = "e"%char) then
        match s' with
        | c' :: ds =>
            if bool_decide (c' = "-"%char) then
              (fun n => - Z.of_N n) <$> parse_digits ds
            else if bool_decide (c' = "+"%char) then
              Z.of_N <$> parse_digits ds
            else Z.of_N <$> parse_digits s'
        | [] => None
        end
      else None
  end.

Definition float_unsigned (neg : bool) (s : str) : option floatval :=
  let low := map to_lower s in
  if bool_decide (low = lit "inf") || bool_decide (low = lit "infinity")
  then Some (FInf neg)
  else if bool_decide (low = lit "nan") then Some FNan
  else
    let '(ip, r1) := span_digits s in
    let '(fp, r2) :=
      match r1 with
      | c :: r => if bool_decide (c = "."%char) then span_digits r
                  else ([], r1)
      | [] => ([], [])
      end in
    match parse_digits (ip ++ fp) with
    | Some m =>
        (fun e => FDec neg m (e - Z.of_nat (length fp))) <$> float_exponent r2
    | None => None
    end.

Definition float (s : str) : option floatval :=
  match strip_by is_space s with
  | c :: r =>
      if bool_decide (c = "-"%char) then float_unsigned true r
      else if bool_decide (c = "+"%char) then float_unsigned false r
      else float_unsigned false (c :: r)
  | [] => None
  end.

(** *** Mixed-type comparison.

    In CPython 2 a number orders before an object of any other type, so
    [s > n] holds for every [str] [s] and [int] [n]. *)
Definition str_gt_int (s : str) (n : Z) : bool := true.

End Py.

Export Py(outcome, Return, Raise, OutOfFuel, exn, KeyError, ValueError, IndexError, UnboundLocalError).

Notation "x <- m ;; k" := (Py.bind m (fun x => k))
  (at level 100, m at next level, right associativity).

(** Case analysis on the outcome of a conversion under a bind. *)
Ltac case_outcome :=
  match goal with
  | |- context [Py.or_ValueError ?o] =>
      let E := fresh "E" in
      destruct o eqn:E; cbn [Py.bind Py.or_ValueError]
  | H : context [Py.or_ValueError ?o] |- _ =>
      let E := fresh "E" in
      destruct o eqn:E; cbn [Py.bind Py.or_ValueError] in H
  end.

(* ===================================================================== *)
(** ** The class [IpFullLocation]                                         *)
(* ===================================================================== *)

Module IpFullLocation.
Import Py.

(** One tuple of a bucket, in the order of the [*_POS] constants:
    START_IP_POS, END_IP_POS, TWO_LETTER_POS, COUNTRY_POS, STATE_POS,
    CITY_POS, LAT_POS, LONG_POS, ZIP_POS, TIMEZONE_POS,
    COUNTRY_PHONE_POS, AREA_PHONE_POS. *)
Record IpInfo := mkIpInfo {
  startIp : Z;
  endIp : Z;
  twoLetter : str;
  country : str;
  state : str;
  city : str;
  lat : floatval;
  long : floatval;
  zip : str;
  timezone : str;
  countryPhone : str;
  areaPhone : str
}.

(** The ten-tuple [lookupIP] returns. *)
Definition Location : Type :=
  str * str * str * str * floatval * floatval * str * str * str * str.

(** Keys of [ipDict]: the constructor seeds it with the [int] key [0];
    every other key is a four-character [str]. *)
Inductive Key := KInt (z : Z) | KStr (s : str).

#[export] Instance Key_eq_dec : EqDecision Key.
Proof. solve_decision. Defined.

#[export] Instance Key_countable : Countable Key :=
  inj_countable'
    (fun k => match k with KInt z => inl z | KStr s => inr s end)
    (fun x => match x with inl z => KInt z | inr s => KStr s end)
    (fun k => match k with KInt _ => eq_refl | KStr _ => eq_refl end).

(** The instance: [ipDict] and [twoLetterKeyedDict]. *)
Record Table := mkTable {
  ipDict : gmap Key (list IpInfo);
  twoLetterKeyedDict : gmap str (str * str * str * str)
}.

(** *** [ipStrToIntAndKey]

    The unpacking of [ipStr.split('.')] is inside the [try]: any number
    of components other than four gives [(None, None)]. The [int]
    conversions are outside it, octet 3 first: their [ValueError]
    leaves the method. *)
Definition ipStrToIntAndKey (ipStr : str) : outcome (option Z * option str) :=
  match split "."%char ipStr with
  | [oct0; oct1; oct2; oct3] =>
      n3 <- or_ValueError (int oct3) ;;
      n2 <- or_ValueError (int oct2) ;;
      n1 <- or_ValueError (int oct1) ;;
      n0 <- or_ValueError (int oct0) ;;
      let ipNum := n3 + n2 * 256 + n1 * 256 * 256 + n0 * 256 * 256 * 256 in
      Return (Some ipNum, Some (take 4 (zfill 10 (str_of_int ipNum))))
  | _ => Return (None, None)
  end.

(** *** [lookupIP] *)

(** The handler of the [while] loop:
    [lookupKey = str(int(lookupKey) - 1).zfill(4)[0:4]]. *)
Definition prevKey (lookupKey : str) : outcome str :=
  n <- or_ValueError (int lookupKey) ;;
  Return (take 4 (zfill 4 (str_of_int (n - 1)))).

(** The [while lookupKey > 0] loop; it yields [ipRangeChain]. A missing
    key and a first tuple that starts above [ipNum] both end in the
    [except KeyError] handler; an empty chain raises [IndexError] at
    [ipRangeChain[0]]. Buckets are lists, so the [is None] test never
    fires. *)
Fixpoint findChain (fuel : nat) (d : gmap Key (list IpInfo))
    (ipNum : Z) (lookupKey : str) : outcome (list IpInfo) :=
  match fuel with
  | O => OutOfFuel
  | S fuel' =>
      if str_gt_int lookupKey 0 then
        match d !! KStr lookupKey with
        | Some ipRangeChain =>
            match ipRangeChain with
            | first :: _ =>
                if startIp first >? ipNum then
                  k <- prevKey lookupKey ;; findChain fuel' d ipNum k
                else Return ipRangeChain
            | [] => Raise IndexError
            end
        | None => k <- prevKey lookupKey ;; findChain fuel' d ipNum k
        end
      else Raise UnboundLocalError
  end.

Definition locationOf (ipInfo : IpInfo) : Location :=
  (twoLetter ipInfo, country ipInfo, state ipInfo, city ipInfo,
   lat ipInfo, long ipInfo, zip ipInfo, timezone ipInfo,
   countryPhone ipInfo, areaPhone ipInfo).

(** The [for ipInfo in ipRangeChain] loop and the [raise KeyError]
    after it. *)
Fixpoint scanChain (ipNum : Z) (ipRangeChain : list IpInfo) : outcome Location :=
  match ipRangeChain with
  | ipInfo :: rest =>
      if ipNum >? endIp ipInfo then scanChain ipNum rest
      else Return (locationOf ipInfo)
  | [] => Raise KeyError
  end.

Definition lookupIP (fuel : nat) (self : Table) (ipStr : str) : outcome Location :=
  r <- ipStrToIntAndKey ipStr ;;
  match r with
  | (Some ipNum, Some lookupKey) =>
      ipRangeChain <- findChain fuel (ipDict self) ipNum lookupKey ;;
      scanChain ipNum ipRangeChain
  | _ => Raise ValueError
  end.

(** *** [get]: [lookupIP] with [except KeyError: return default]. *)
Definition get {D : Type} (fuel : nat) (self : Table) (ipStr : str)
    (default : D) : outcome (Location + D) :=
  match lookupIP fuel self ipStr with
  | Return loc => Return (inl loc)
  | Raise KeyError => Return (inr default)
  | Raise e => Raise e
  | OutOfFuel => OutOfFuel
  end.

(** *** [getBy3LetterCode] *)
Definition getBy3LetterCode (self : Table) (code : str)
    : outcome (str * str * str * str) :=
  match twoLetterKeyedDict self !! code with
  | Some t => Return t
  | None => Raise KeyError
  end.

(** *** The constructor

    [csv.reader] is not modelled: the loader is given the rows it
    yields, one list of fields per line (quotes already removed, a
    blank line as the empty list). *)

(** State of the [for line in csv.reader(fd)] loop. *)
Record Loader := mkLoader {
  table : Table;
  currKey : Key
}.

(** [currKey = 0; self.ipDict = {currKey : []}; self.twoLetterKeyedDict = {}] *)
Definition initial : Loader :=
  mkLoader (mkTable {[ KInt 0 := [] ]} ∅) (KInt 0).

(** [len(line) == 0 or line[0] == '#' or line == '\n' or line[0] == '0'];
    [line] is a list, so the comparison with ['\n'] is false. *)
Definition skipLine (line : list str) : bool :=
  match line with
  | [] => true
  | f0 :: _ =>
      bool_decide (f0 = lit "#") || false || bool_decide (f0 = lit "0")
  end.

(** The tuple appended to the bucket; the conversions run left to
    right and the first failure raises [ValueError]. *)
Definition makeIpInfo (startIPStr endIPStr twoLetterCountry country state city
    latitude longitude zipcode timezone country_phone_code area_code : str)
    : outcome IpInfo :=
  s <- or_ValueError (int (strip_quote startIPStr)) ;;
  e <- or_ValueError (int (strip_quote endIPStr)) ;;
  la <- or_ValueError (float latitude) ;;
  lo <- or_ValueError (float longitude) ;;
  Return (mkIpInfo s e (strip_quote twoLetterCountry) (strip_quote country)
            (strip_quote state) (strip_quote city) la lo
            (strip_quote zipcode) (strip_quote timezone)
            (strip_quote country_phone_code) (strip_quote area_code)).

Definition hashKeyOf (startIPStr : str) : str :=
  take 4 (zfill 10 (strip_quote startIPStr)).

(** One iteration of the loop body. A row that does not unpack into
    twelve names is reported and passed over; everything after the
    unpacking is outside the [try]. *)
Definition loadLine (st : Loader) (line : list str) : outcome Loader :=
  if skipLine line then Return st
  else
    match line with
    | [startIPStr; endIPStr; twoLetterCountry; country; state; city;
       latitude; longitude; zipcode; timezone; country_phone_code; area_code] =>
        let hashKey := hashKeyOf startIPStr in
        let '(d, cur) :=
          if bool_decide (KStr hashKey ≠ currKey st)
          then (<[KStr hashKey := []]> (ipDict (table st)), KStr hashKey)
          else (ipDict (table st), currKey st) in
        match d !! KStr hashKey with
        | Some bucket =>
            info <- makeIpInfo startIPStr endIPStr twoLetterCountry country
                      state city latitude longitude zipcode timezone
                      country_phone_code area_code ;;
            let code := strip_quote twoLetterCountry in
            Return (mkLoader
                      (mkTable
                         (<[KStr hashKey := bucket ++ [info]]> d)
                         (<[code := (code, strip_quote country,
                                     strip_quote state, strip_quote city)]>
                            (twoLetterKeyedDict (table st))))
                      cur)
        | None => Raise KeyError
        end
    | _ => Return st
    end.

Fixpoint loadLines (st : Loader) (lines : list (list str)) : outcome Loader :=
  match lines with
  | [] => Return st
  | line :: rest => st' <- loadLine st line ;; loadLines st' rest
  end.

(** [IpFullLocation(ipTablePath)] on a file whose rows are [lines]. *)
Definition __init__ (lines : list (list str)) : outcome Table :=
  st <- loadLines initial lines ;; Return (table st).

End IpFullLocation.

Import Py IpFullLocation.

(* ===================================================================== *)
(** ** Vocabulary of the properties                                       *)
(* ===================================================================== *)

(** The four base-256 digits of an address number, most significant
    first, and the dotted quad they spell. *)
Definition octetsOf (ipNum : Z) : list Z :=
  [ipNum / (256 * 256 * 256) mod 256; ipNum / (256 * 256) mod 256;
   ipNum / 256 mod 256; ipNum mod 256].

Fixpoint joinDot (parts : list str) : str :=
  match parts with
  | [] => []
  | [s] => s
  | s :: rest => s ++ "."%char :: joinDot rest
  end.

Definition dottedQuad (octets : list Z) : str :=
  joinDot (map Py.str_of_int octets).

Definition isOctet (z : Z) : Prop := 0 <= z <= 255.

(** The shape of every lookup key the loop of [lookupIP] can hold: four
    digits, or a minus sign and three digits. *)
Definition keyShape (k : str) : Prop :=
  (length k = 4%nat ∧ Forall (fun c => Py.is_digit c = true) k) ∨
  (∃ t, k = "-"%char :: t ∧ length t = 3%nat ∧
        Forall (fun c => Py.is_digit c = true) t).

(** [ipNum] lies in the range of a tuple. *)
Definition covers (r : IpInfo) (ipNum : Z) : Prop :=
  startIp r <= ipNum <= endIp r.

(** The order the source file gives a bucket: ranges are not empty, rise
    and do not overlap. *)
Fixpoint ascendingDisjoint (chain : list IpInfo) : Prop :=
  match chain with
  | [] => True
  | r :: rest =>
      startIp r <= endIp r ∧
      match rest with
      | r' :: _ => endIp r < startIp r'
      | [] => True
      end ∧
      ascendingDisjoint rest
  end.

(** The loop of [lookupIP] moves on from key [k]: there is no bucket, or
    the bucket starts above [ipNum]. *)
Definition passedOver (d : gmap Key (list IpInfo)) (ipNum : Z) (k : str) : Prop :=
  d !! KStr k = None ∨
  ∃ first rest, d !! KStr k = Some (first :: rest) ∧ startIp first > ipNum.

(** What a row of the file contributes, read off the loop body of the
    constructor: nothing for a row that is skipped or does not unpack,
    a bucket key and a tuple for a row that converts, [ValueError]
    otherwise. *)
Definition rowEntry (line : list str) : outcome (option (str * IpInfo)) :=
  if skipLine line then Return None
  else
    match line with
    | [startIPStr; endIPStr; twoLetterCountry; country; state; city;
       latitude; longitude; zipcode; timezone; country_phone_code; area_code] =>
        info <- makeIpInfo startIPStr endIPStr twoLetterCountry country
                  state city latitude longitude zipcode timezone
                  country_phone_code area_code ;;
        Return (Some (hashKeyOf startIPStr, info))
    | _ => Return None
    end.

Fixpoint entries (lines : list (list str)) : outcome (list (str * IpInfo)) :=
  match lines with
  | [] => Return []
  | line :: rest =>
      e <- rowEntry line ;;
      es <- entries rest ;;
      Return (match e with Some x => x :: es | None => es end)
  end.

(** The effect of one converted row on the loader, as a function of its
    bucket key and tuple: a key other than the current one starts the
    bucket afresh. *)
Definition pushEntry (st : Loader) (e : str * IpInfo) : Loader :=
  let '(k, info) := e in
  let old :=
    if decide (currKey st = KStr k)
    then default [] (ipDict (table st) !! KStr k)
    else [] in
  mkLoader
    (mkTable
       (<[KStr k := old ++ [info]]> (ipDict (table st)))
       (<[twoLetter info :=
            (twoLetter info, country info, state info, city info)]>
          (twoLetterKeyedDict (table st))))
    (KStr k).

(** The bucket of the current key exists. *)
Definition currentBucketExists (st : Loader) : Prop :=
  ∀ k, currKey st = KStr k → is_Some (ipDict (table st) !! KStr k).

(** A row with all twelve fields whose numeric fields convert. *)
Definition wellFormed (line : list str) : Prop :=
  ∃ e, rowEntry line = Return (Some e).

(** *** Sample data *)

Definition rowBrisbane : list str :=
  map lit ["16777216"; "16777471"; "AU"; "Australia"; "Queensland";
           "Brisbane"; "-27.467940"; "153.028090"; "4000"; "+10:00";
           "61"; "07"]%string.

Definition rowFuzhou : list str :=
  map lit ["16778240"; "16779263"; "CN"; "China"; "Fujian"; "Fuzhou";
           "26.061390"; "119.306110"; "350004"; "+08:00"; "86"; "0591"]%string.

(** A range that runs on into the addresses of the next key. *)
Definition rowTokyo : list str :=
  map lit ["16779264"; "17000499"; "JP"; "Japan"; "Tokyo"; "Tokyo";
           "35.689506"; "139.691700"; "100-0001"; "+09:00"; "81"; "03"]%string.

Definition rowBangkok : list str :=
  map lit ["17000500"; "17100000"; "TH"; "Thailand"; "Krung Thep"; "Bangkok";
           "13.753979"; "100.501444"; "10200"; "+07:00"; "66"; "02"]%string.

Definition rowStanford : list str :=
  map lit ["2873117440"; "2873118719"; "US"; "United States"; "California";
           "Stanford"; "37.421262"; "-122.163949"; "94305"; "-07:00";
           "1"; "650"]%string.

(** Twelve fields, the start address not a number. *)
Definition rowBadStart : list str :=
  map lit ["16M"; "16778239"; "CN"; "China"; "Fujian"; "Fuzhou";
           "26.061390"; "119.306110"; "350004"; "+08:00"; "86"; "0591"]%string.

(** Twelve fields, the latitude not a number. *)
Definition rowBadLat : list str :=
  map lit ["16777472"; "16778239"; "CN"; "China"; "Fujian"; "Fuzhou";
           "north"; "119.306110"; "350004"; "+08:00"; "86"; "0591"]%string.

(** Three fields. *)
Definition rowShort : list str := map lit ["16777472"; "16778239"; "CN"]%string.

(** A comment line that happens to hold eleven commas. *)
Definition rowComment : list str :=
  map lit ["# start"; "end"; "code"; "country"; "region"; "city"; "lat";
           "long"; "zip"; "tz"; "phone"; "area"]%string.

Definition sampleLines : list (list str) :=
  [rowBrisbane; rowFuzhou; rowTokyo; rowBangkok; rowStanford].

(** The table an outcome carries, the empty one for a failed load. *)
Definition tableOf (o : outcome Table) : Table :=
  match o with
  | Return t => t
  | _ => mkTable ∅ ∅
  end.

Definition sampleTable : Table := tableOf (__init__ sampleLines).

(** The tuple a sample row is stored as. *)
Definition infoOf (line : list str) : IpInfo :=
  match rowEntry line with
  | Return (Some (_, info)) => info
  | _ => mkIpInfo 0 0 [] [] [] [] Py.FNan Py.FNan [] [] [] []
  end.

(** *** Further vocabulary *)

(** The loop of [lookupIP] goes from key [k] to key [k'] in [n] turns,
    each through the [except KeyError] handler. *)
Inductive backtracks (d : gmap Key (list IpInfo)) (ipNum : Z)
    : str → nat → str → Prop :=
| backtracks_here k : backtracks d ipNum k 0 k
| backtracks_step k k1 n k' :
    passedOver d ipNum k →
    prevKey k = Return k1 →
    backtracks d ipNum k1 n k' →
    backtracks d ipNum k (S n) k'.

(** What the constructor keeps true of [ipDict]: the seed bucket of the
    [int] key 0 stays empty and is the only [int] key, and a bucket
    with a [str] key has a key of four characters and is not empty. *)
Definition bucketsInOrder (d : gmap Key (list IpInfo)) : Prop :=
  d !! KInt 0 = Some [] ∧
  (∀ z, z ≠ 0 → d !! KInt z = None) ∧
  (∀ k chain, d !! KStr k = Some chain → chain ≠ [] ∧ length k = 4%nat).

(** A range that covers the addresses of three keys. *)
Definition rowSapporo : list str :=
  map lit ["16779264"; "18500000"; "JP"; "Japan"; "Hokkaido"; "Sapporo";
           "43.064170"; "141.346940"; "060-0001"; "+09:00"; "81"; "011"]%string.

Definition wideTable : Table := tableOf (__init__ [rowBrisbane; rowSapporo]).

(** Two rows with the country code AU, one with CN between them. *)
Definition rowSydney : list str :=
  map lit ["16842752"; "16843007"; "AU"; "Australia"; "New South Wales";
           "Sydney"; "-33.867850"; "151.207320"; "2000"; "+11:00";
           "61"; "02"]%string.

(* ===================================================================== *)
(** ** Lemmas on the built-ins                                            *)
(* ===================================================================== *)

Section Digits.
Import Py.

Lemma digit_char_is_digit d : (d < 10)%N → is_digit (digit_char d) = true.
Proof.
  intros H. unfold is_digit, digit_char.
  rewrite N_ascii_embedding by lia.
  apply andb_true_iff; split; apply N.leb_le; lia.
Qed.

Lemma digit_val_char d : (d < 10)%N → digit_val (digit_char d) = d.
Proof.
  intros H. unfold digit_val, digit_char.
  rewrite N_ascii_embedding by lia. lia.
Qed.

Lemma is_digit_not_sign c : is_digit c = true → is_sign c = false.
Proof.
  unfold is_sign. intros H.
  apply orb_false_iff; split; apply bool_decide_eq_false;
    intros ->; vm_compute in H; discriminate.
Qed.

Lemma is_digit_not_space c : is_digit c = true → is_space c = false.
Proof.
  unfold is_digit, is_space. intros H.
  apply andb_true_iff in H as [H1 H2].
  apply N.leb_le in H1. apply N.leb_le in H2.
  apply orb_false_iff; split.
  - apply N.eqb_neq. lia.
  - apply andb_false_iff. right. apply N.leb_gt. lia.
Qed.

Lemma is_digit_not_dot c : is_digit c = true → c ≠ "."%char.
Proof. intros H ->. vm_compute in H. discriminate. Qed.

(** [digits_aux] only ever prepends to its accumulator. *)
Lemma digits_aux_app fuel : ∀ n acc,
  digits_aux fuel n acc = digits_aux fuel n [] ++ acc.
Proof.
  induction fuel as [|f IH]; intros n acc; simpl; [done|].
  destruct (n / 10 =? 0)%N; [done|].
  rewrite (IH _ (_ :: acc)), (IH _ [_]).
  by rewrite <- app_assoc.
Qed.

Lemma digits_aux_digits fuel : ∀ n,
  Forall (fun c => is_digit c = true) (digits_aux fuel n []).
Proof.
  induction fuel as [|f IH]; intros n; simpl; [constructor|].
  assert (Hd : is_digit (digit_char (n mod 10)%N) = true).
  { apply digit_char_is_digit. apply N.mod_lt. lia. }
  destruct (n / 10 =? 0)%N.
  - by constructor.
  - rewrite digits_aux_app. apply Forall_app; split; [apply IH|].
    by constructor.
Qed.

Lemma digits_aux_nonempty fuel n : digits_aux (S fuel) n [] ≠ [].
Proof.
  simpl. destruct (n / 10 =? 0)%N; [done|].
  rewrite digits_aux_app. intros H. by apply app_eq_nil in H as [_ ?].
Qed.

Lemma str_N_digits n : Forall (fun c => is_digit c = true) (str_N n).
Proof. apply digits_aux_digits. Qed.

Lemma str_N_nonempty n : str_N n ≠ [].
Proof. apply digits_aux_nonempty. Qed.

Lemma digits_value_app s1 : ∀ acc s2,
  digits_value acc (s1 ++ s2) = digits_value acc s1 ≫= fun v => digits_value v s2.
Proof.
  induction s1 as [|c s1 IH]; intros acc s2; simpl; [done|].
  destruct (is_digit c); [apply IH|done].
Qed.

Lemma digits_value_total s : ∀ acc,
  Forall (fun c => is_digit c = true) s → is_Some (digits_value acc s).
Proof.
  induction s as [|c s IH]; intros acc H; simpl; [eauto|].
  inversion H as [|? ? Hc Hs]; subst. rewrite Hc. by apply IH.
Qed.

Lemma parse_digits_total s :
  s ≠ [] → Forall (fun c => is_digit c = true) s → is_Some (parse_digits s).
Proof.
  intros Hne H. destruct s; [done|]. by apply digits_value_total.
Qed.

(** Reading back what [str] printed. *)
Lemma digits_aux_value fuel : ∀ n,
  (n < 2 ^ N.of_nat fuel)%N →
  digits_value 0 (digits_aux (S fuel) n []) = Some n.
Proof.
  induction fuel as [|f IH]; intros n Hn.
  - assert (n = 0%N) as -> by (simpl in Hn; lia). reflexivity.
  - change (digits_aux (S (S f)) n [])
      with (let acc' := [digit_char (n mod 10)%N] in
            if (n / 10 =? 0)%N then acc'
            else digits_aux (S f) (n / 10)%N acc').
    cbv zeta.
    assert (Hm : (n mod 10 < 10)%N) by (apply N.mod_lt; lia).
    destruct (n / 10 =? 0)%N eqn:Hq.
    + apply N.eqb_eq in Hq. simpl.
      rewrite digit_char_is_digit, digit_val_char by done.
      f_equal. pose proof (N.div_mod n 10). lia.
    + rewrite digits_aux_app, digits_value_app, IH.
      * simpl. rewrite digit_char_is_digit, digit_val_char by done.
        f_equal. pose proof (N.div_mod n 10). lia.
      * rewrite Nat2N.inj_succ, N.pow_succ_r' in Hn.
        apply N.Div0.div_lt_upper_bound. lia.
Qed.

Lemma parse_digits_str_N n : parse_digits (str_N n) = Some n.
Proof.
  unfold parse_digits. pose proof (str_N_nonempty n) as Hne.
  destruct (str_N n) eqn:E; [done|]. rewrite <- E.
  apply digits_aux_value.
  rewrite N2Nat.id. apply N.size_gt.
Qed.

End Digits.

Section Strings.
Import Py.

Lemma lstrip_none p s : Forall (fun c => p c = false) s → lstrip p s = s.
Proof. intros H. destruct H as [|c s Hc _]; simpl; [done|]. by rewrite Hc. Qed.

Lemma strip_by_none p s : Forall (fun c => p c = false) s → strip_by p s = s.
Proof.
  intros H. unfold strip_by, rstrip.
  rewrite (lstrip_none p s H), lstrip_none, rev_involutive; [done|].
  by apply Forall_rev.
Qed.

Lemma digits_no_space s :
  Forall (fun c => is_digit c = true) s → Forall (fun c => is_space c = false) s.
Proof.
  intros H. eapply Forall_impl; [exact H|].
  intros c. apply is_digit_not_space.
Qed.

(** [int] on an unsigned numeral. *)
Lemma int_digits s :
  s ≠ [] → Forall (fun c => is_digit c = true) s →
  int s = Z.of_N <$> parse_digits s.
Proof.
  intros Hne H. unfold int.
  rewrite strip_by_none by by apply digits_no_space.
  destruct s as [|c ds]; [done|].
  inversion H as [|? ? Hc _]; subst.
  rewrite !bool_decide_eq_false_2; [done| |];
    intros ->; vm_compute in Hc; discriminate.
Qed.

(** [int] on a numeral with a minus sign. *)
Lemma int_minus_digits s :
  Forall (fun c => is_digit c = true) s →
  int ("-"%char :: s) = (fun n => - Z.of_N n) <$> parse_digits s.
Proof.
  intros H. unfold int.
  rewrite strip_by_none; [done|].
  constructor; [done|]. by apply digits_no_space.
Qed.

(** [int(str(z)) == z]. *)
Lemma int_str_of_int z : int (str_of_int z) = Some z.
Proof.
  unfold str_of_int. destruct (z <? 0) eqn:Hz.
  - apply Z.ltb_lt in Hz.
    rewrite int_minus_digits by apply str_N_digits.
    rewrite parse_digits_str_N. simpl. f_equal. lia.
  - apply Z.ltb_ge in Hz.
    rewrite int_digits by (apply str_N_nonempty || apply str_N_digits).
    rewrite parse_digits_str_N. simpl. f_equal. lia.
Qed.

Lemma split_dot_nonempty s : split "."%char s ≠ [].
Proof.
  destruct s as [|c s]; simpl; [done|].
  destruct (bool_decide _); [done|]. by destruct (split "."%char s).
Qed.

(** A component without a dot is cut at the first dot after it. *)
Lemma split_dot_app s : ∀ r,
  Forall (fun c => c ≠ "."%char) s →
  split "."%char (s ++ "."%char :: r) = s :: split "."%char r.
Proof.
  induction s as [|c s IH]; intros r H; simpl.
  - done.
  - inversion H as [|? ? Hc Hs]; subst.
    rewrite bool_decide_eq_false_2 by done.
    by rewrite IH.
Qed.

Lemma split_dot_single s :
  Forall (fun c => c ≠ "."%char) s → split "."%char s = [s].
Proof.
  induction s as [|c s IH]; intros H; simpl; [done|].
  inversion H as [|? ? Hc Hs]; subst.
  rewrite bool_decide_eq_false_2 by done.
  by rewrite IH.
Qed.

Lemma str_of_int_no_dot z :
  0 <= z → Forall (fun c => c ≠ "."%char) (str_of_int z).
Proof.
  intros Hz. unfold str_of_int.
  rewrite (proj2 (Z.ltb_ge z 0)) by done.
  eapply Forall_impl; [apply str_N_digits|].
  intros c. apply is_digit_not_dot.
Qed.

(** *** Lookup keys *)

Lemma keyShape_int k : keyShape k → is_Some (int k).
Proof.
  intros [[Hlen Hd] | (t & -> & Hlen & Hd)].
  - rewrite int_digits; [|by destruct k|done].
    apply fmap_is_Some, parse_digits_total; [by destruct k|done].
  - rewrite int_minus_digits by done.
    apply fmap_is_Some, parse_digits_total; [by destruct t|done].
Qed.

(** The first four characters of a zero-filled decimal numeral. *)
Lemma keyShape_take_zfill w z :
  (4 <= w)%nat → keyShape (take 4 (zfill w (str_of_int z))).
Proof.
  intros Hw. unfold str_of_int. destruct (z <? 0).
  - right.
    pose proof (str_N_digits (Z.to_N (- z))) as Hd.
    pose proof (str_N_nonempty (Z.to_N (- z))) as Hne.
    set (ds := str_N (Z.to_N (- z))) in *.
    assert (∃ t, zfill w ("-"%char :: ds) = "-"%char :: t ∧
                 Forall (fun c => is_digit c = true) t ∧
                 (3 <= length t ∨ w <= S (length t))%nat) as (t & -> & Ht & Hl).
    { unfold zfill. destruct (w <=? length ("-"%char :: ds))%nat eqn:E.
      - apply Nat.leb_le in E. simpl in E. exists ds. repeat split; auto.
      - apply Nat.leb_gt in E. simpl in E.
        change (is_sign "-"%char) with true. cbv iota.
        eexists. split; [reflexivity|]. split.
        + apply Forall_app; split; [by apply Forall_replicate|done].
        + rewrite length_app, length_replicate. simpl. lia. }
    exists (take 3 t). simpl. repeat split.
    + rewrite length_take. lia.
    + by apply Forall_take.
  - left.
    pose proof (str_N_digits (Z.to_N z)) as Hd.
    pose proof (str_N_nonempty (Z.to_N z)) as Hne.
    set (ds := str_N (Z.to_N z)) in *.
    assert (Forall (fun c => is_digit c = true) (zfill w ds) ∧
            (w <= length (zfill w ds))%nat) as [Ht Hl].
    { unfold zfill. destruct (w <=? length ds)%nat eqn:E.
      - apply Nat.leb_le in E. done.
      - apply Nat.leb_gt in E.
        destruct ds as [|c ds']; [done|].
        inversion Hd as [|? ? Hc _]; subst.
        rewrite (is_digit_not_sign c Hc). split.
        + apply Forall_app; split; [by apply Forall_replicate|done].
        + rewrite length_app, length_replicate. lia. }
    split; [rewrite length_take; lia | by apply Forall_take].
Qed.

Lemma prevKey_keyShape k :
  keyShape k → ∃ k', prevKey k = Return k' ∧ keyShape k'.
Proof.
  intros Hk. destruct (keyShape_int k Hk) as [n Hn].
  unfold prevKey. rewrite Hn. simpl.
  eexists; split; [reflexivity|]. by apply keyShape_take_zfill.
Qed.

(** The keys below "0001": the decrement passes zero, and from "-999"
    it falls back to "-100". *)
Example prevKey_0001 : prevKey (lit "0001") = Return (lit "0000").
Proof. reflexivity. Qed.

Example prevKey_0000 : prevKey (lit "0000") = Return (lit "-001").
Proof. reflexivity. Qed.

Example prevKey_minus_999 : prevKey (lit "-999") = Return (lit "-100").
Proof. reflexivity. Qed.

End Strings.

(* ===================================================================== *)
(** ** Address parsing                                                    *)
(* ===================================================================== *)

Section Parsing.
Import Py.

Lemma ipStrToIntAndKey_not_four ipStr :
  length (split "."%char ipStr) ≠ 4%nat →
  ipStrToIntAndKey ipStr = Return (None, None).
Proof.
  unfold ipStrToIntAndKey.
  destruct (split "."%char ipStr) as [|o0 [|o1 [|o2 [|o3 [|? ?]]]]]; simpl; done.
Qed.

Lemma ipStrToIntAndKey_four ipStr o0 o1 o2 o3 n0 n1 n2 n3 :
  split "."%char ipStr = [o0; o1; o2; o3] →
  int o0 = Some n0 → int o1 = Some n1 → int o2 = Some n2 → int o3 = Some n3 →
  let ipNum := n3 + n2 * 256 + n1 * 256 * 256 + n0 * 256 * 256 * 256 in
  ipStrToIntAndKey ipStr =
    Return (Some ipNum, Some (take 4 (zfill 10 (str_of_int ipNum)))).
Proof.
  intros Hs H0 H1 H2 H3. unfold ipStrToIntAndKey.
  by rewrite Hs, H3, H2, H1, H0.
Qed.

Lemma ipStrToIntAndKey_bad_octet ipStr o0 o1 o2 o3 :
  split "."%char ipStr = [o0; o1; o2; o3] →
  int o0 = None ∨ int o1 = None ∨ int o2 = None ∨ int o3 = None →
  ipStrToIntAndKey ipStr = Raise ValueError.
Proof.
  intros Hs H. unfold ipStrToIntAndKey. rewrite Hs.
  destruct (int o3); simpl; [|done].
  destruct (int o2); simpl; [|done].
  destruct (int o1); simpl; [|done].
  destruct (int o0); simpl; [|done].
  destruct H as [|[|[|]]]; discriminate.
Qed.

(** Whatever the method returns as a key has the shape of a key. *)
Lemma ipStrToIntAndKey_keyShape ipStr ipNum key :
  ipStrToIntAndKey ipStr = Return (Some ipNum, Some key) → keyShape key.
Proof.
  unfold ipStrToIntAndKey.
  destruct (split "."%char ipStr) as [|o0 [|o1 [|o2 [|o3 [|? ?]]]]];
    try discriminate.
  repeat (case_outcome; try discriminate).
  intros [= _ <-]. apply keyShape_take_zfill. lia.
Qed.

Lemma octetsOf_combine a b c d :
  isOctet a → isOctet b → isOctet c → isOctet d →
  octetsOf (d + c * 256 + b * 256 * 256 + a * 256 * 256 * 256) = [a; b; c; d].
Proof.
  unfold isOctet, octetsOf. intros Ha Hb Hc Hd.
  repeat f_equal; Z.div_mod_to_equations; lia.
Qed.

(** Any accepted spelling of four octets (leading zeros, a plus sign
    or white space included) yields the number they denote. *)
Lemma ipStrToIntAndKey_octets ipStr o0 o1 o2 o3 a b c d :
  split "."%char ipStr = [o0; o1; o2; o3] →
  int o0 = Some a → int o1 = Some b → int o2 = Some c → int o3 = Some d →
  isOctet a → isOctet b → isOctet c → isOctet d →
  ∃ ipNum key,
    ipStrToIntAndKey ipStr = Return (Some ipNum, Some key) ∧
    octetsOf ipNum = [a; b; c; d].
Proof.
  intros Hs H0 H1 H2 H3 Ha Hb Hc Hd.
  eexists _, _. split.
  - by apply (ipStrToIntAndKey_four ipStr o0 o1 o2 o3 a b c d).
  - by apply octetsOf_combine.
Qed.

Lemma split_dot_dottedQuad a b c d :
  0 <= a → 0 <= b → 0 <= c → 0 <= d →
  split "."%char (dottedQuad [a; b; c; d]) =
    [str_of_int a; str_of_int b; str_of_int c; str_of_int d].
Proof.
  intros Ha Hb Hc Hd. unfold dottedQuad. simpl.
  rewrite !split_dot_app by by apply str_of_int_no_dot.
  by rewrite split_dot_single by by apply str_of_int_no_dot.
Qed.

End Parsing.

(** C7. For four octets in 0..255, [ipStrToIntAndKey] of their dotted
    quad returns a number whose four base-256 digits are those octets,
    and which spells the same dotted quad again. *)
Theorem ipStrToIntAndKey_round_trip (a b c d : Z) :
  isOctet a → isOctet b → isOctet c → isOctet d →
  ∃ ipNum key,
    ipStrToIntAndKey (dottedQuad [a; b; c; d]) = Return (Some ipNum, Some key) ∧
    octetsOf ipNum = [a; b; c; d] ∧
    dottedQuad (octetsOf ipNum) = dottedQuad [a; b; c; d].
Proof.
  intros Ha Hb Hc Hd.
  destruct (ipStrToIntAndKey_octets (dottedQuad [a; b; c; d])
              (Py.str_of_int a) (Py.str_of_int b) (Py.str_of_int c)
              (Py.str_of_int d) a b c d)
    as (ipNum & key & Hr & Ho);
    try apply int_str_of_int; try done.
  - unfold isOctet in *. apply split_dot_dottedQuad; lia.
  - exists ipNum, key. by rewrite Ho.
Qed.

Lemma ipStrToIntAndKey_round_trip_witness :
  ∃ ipNum key,
    ipStrToIntAndKey (lit "171.64.75.96") = Return (Some ipNum, Some key) ∧
    octetsOf ipNum = [171; 64; 75; 96] ∧
    dottedQuad (octetsOf ipNum) = lit "171.64.75.96".
Proof.
  destruct (ipStrToIntAndKey_round_trip 171 64 75 96)
    as (ipNum & key & H1 & H2 & H3); try (unfold isOctet; lia).
  exists ipNum, key. repeat split; [exact H1 | exact H2 | exact H3].
Defined.

(* ===================================================================== *)
(** ** Lookup                                                             *)
(* ===================================================================== *)

Section Lookup.
Import Py.
Implicit Types (d : gmap Key (list IpInfo)) (chain : list IpInfo).

(** One turn of the loop through the [except KeyError] handler. *)
Lemma findChain_pass fuel d ipNum k k' :
  passedOver d ipNum k → prevKey k = Return k' →
  findChain (S fuel) d ipNum k = findChain fuel d ipNum k'.
Proof.
  intros [Hnone | (first & rest & Hsome & Hgt)] Hk; simpl.
  - by rewrite Hnone, Hk.
  - rewrite Hsome, Hk. by rewrite (proj2 (Z.gtb_gt _ _) Hgt).
Qed.

(** One turn of the loop through [break]. *)
Lemma findChain_break fuel d ipNum k first rest :
  d !! KStr k = Some (first :: rest) → startIp first <= ipNum →
  findChain (S fuel) d ipNum k = Return (first :: rest).
Proof.
  intros Hsome Hle. simpl. rewrite Hsome.
  destruct (startIp first >? ipNum) eqn:E; [|done].
  apply Z.gtb_gt in E. lia.
Qed.

Lemma findChain_fuel_mono fuel : ∀ d ipNum k chain,
  findChain fuel d ipNum k = Return chain →
  findChain (S fuel) d ipNum k = Return chain.
Proof.
  induction fuel as [|f IH]; intros d ipNum k chain; [done|].
  intros H. simpl in H.
  change (findChain (S (S f)) d ipNum k) with
    (match d !! KStr k with
     | Some ipRangeChain =>
         match ipRangeChain with
         | first :: _ =>
             if startIp first >? ipNum then
               k' <- prevKey k ;; findChain (S f) d ipNum k'
             else Return ipRangeChain
         | [] => Raise IndexError
         end
     | None => k' <- prevKey k ;; findChain (S f) d ipNum k'
     end).
  destruct (d !! KStr k) as [[|first rest]|]; try done.
  - destruct (startIp first >? ipNum); [|done].
    destruct (prevKey k) as [k'| |]; simpl in *; try done. by apply IH.
  - destruct (prevKey k) as [k'| |]; simpl in *; try done. by apply IH.
Qed.

(** The loop never fails converting its key. *)
Lemma findChain_not_ValueError fuel : ∀ d ipNum k,
  keyShape k → findChain fuel d ipNum k ≠ Raise ValueError.
Proof.
  induction fuel as [|f IH]; intros d ipNum k Hk; [done|].
  destruct (prevKey_keyShape k Hk) as (k' & Hprev & Hk').
  simpl. rewrite Hprev. simpl.
  destruct (d !! KStr k) as [[|first rest]|]; try done.
  - destruct (startIp first >? ipNum); [by apply IH|done].
  - by apply IH.
Qed.

(** When every key is passed over, the loop uses up any budget. *)
Lemma findChain_diverges d ipNum :
  (∀ k, keyShape k → passedOver d ipNum k) →
  ∀ fuel k, keyShape k → findChain fuel d ipNum k = OutOfFuel.
Proof.
  intros Hall. induction fuel as [|f IH]; intros k Hk; [done|].
  destruct (prevKey_keyShape k Hk) as (k' & Hprev & Hk').
  rewrite (findChain_pass f d ipNum k k') by auto. by apply IH.
Qed.

(** The scan returns the first tuple whose end is not below [ipNum]. *)
Lemma scanChain_first ipNum pre : ∀ r post,
  Forall (fun x => endIp x < ipNum) pre → ipNum <= endIp r →
  scanChain ipNum (pre ++ r :: post) = Return (locationOf r).
Proof.
  induction pre as [|x pre IH]; intros r post Hpre Hr; simpl.
  - destruct (ipNum >? endIp r) eqn:E; [|done].
    apply Z.gtb_gt in E. lia.
  - inversion Hpre as [|? ? Hx Hrest]; subst.
    rewrite (proj2 (Z.gtb_gt _ _)) by lia. by apply IH.
Qed.

Lemma scanChain_none ipNum chain :
  Forall (fun x => endIp x < ipNum) chain →
  scanChain ipNum chain = Raise KeyError.
Proof.
  induction 1 as [|x chain Hx _ IH]; simpl; [done|].
  by rewrite (proj2 (Z.gtb_gt _ _)) by lia.
Qed.

Lemma scanChain_not_ValueError ipNum chain :
  scanChain ipNum chain ≠ Raise ValueError.
Proof.
  induction chain as [|x chain IH]; simpl; [done|].
  by destruct (ipNum >? endIp x).
Qed.

(** In an ordered bucket every tuple before a given one ends below the
    start of that one, and the bucket's first tuple starts no later. *)
Lemma ascendingDisjoint_before pre : ∀ r post,
  ascendingDisjoint (pre ++ r :: post) →
  Forall (fun x => endIp x < startIp r) pre ∧
  (∀ first rest, pre ++ r :: post = first :: rest → startIp first <= startIp r).
Proof.
  induction pre as [|x pre IH]; intros r post H.
  - split; [constructor|]. intros first rest [= <- _]. lia.
  - destruct H as (Hx & Hnext & Hrest).
    destruct (IH r post Hrest) as [Hall Hfirst]. simpl in *.
    assert (Hxr : endIp x < startIp r).
    { destruct pre as [|y pre]; simpl in *; [done|].
      specialize (Hfirst y _ eq_refl).
      inversion Hall; subst. lia. }
    split; [by constructor|].
    intros first rest [= <- _]. lia.
Qed.

(** [lookupIP] once the address has parsed. *)
Lemma lookupIP_parsed fuel self ipStr ipNum key :
  ipStrToIntAndKey ipStr = Return (Some ipNum, Some key) →
  lookupIP fuel self ipStr =
    (chain <- findChain fuel (ipDict self) ipNum key ;; scanChain ipNum chain).
Proof. intros H. unfold lookupIP. by rewrite H. Qed.

End Lookup.

(** One step back: the loop selects the bucket of the key before [K]
    and the scan stops at the covering tuple. *)
Lemma lookupIP_backtracks_one (self : Table) (ipStr K K1 : str) (ipNum : Z)
    (pre post : list IpInfo) (r : IpInfo) (fuel : nat) :
  ipStrToIntAndKey ipStr = Return (Some ipNum, Some K) →
  passedOver (ipDict self) ipNum K →
  prevKey K = Return K1 →
  ipDict self !! KStr K1 = Some (pre ++ r :: post) →
  ascendingDisjoint (pre ++ r :: post) →
  covers r ipNum →
  (2 <= fuel)%nat →
  findChain fuel (ipDict self) ipNum K = Return (pre ++ r :: post) ∧
  lookupIP fuel self ipStr = Return (locationOf r).
Proof.
  intros Hparse Hpass Hprev Hbucket Hord [Hlo Hhi] Hfuel.
  destruct (ascendingDisjoint_before pre r post Hord) as [Hbefore Hfirst].
  destruct fuel as [|[|fuel]]; try lia.
  assert (Hfind : findChain (S (S fuel)) (ipDict self) ipNum K
                  = Return (pre ++ r :: post)).
  { rewrite (findChain_pass _ _ _ K K1) by done.
    destruct (pre ++ r :: post) as [|first rest] eqn:E.
    - by destruct pre.
    - apply findChain_break; [done|].
      specialize (Hfirst first rest eq_refl). lia. }
  split; [done|].
  rewrite (lookupIP_parsed _ _ _ ipNum K) by done.
  rewrite Hfind. simpl. apply scanChain_first; [|done].
  eapply Forall_impl; [exact Hbefore|]. simpl. lia.
Qed.

(** C2. Once the loop has selected a bucket, [lookupIP] returns the
    fields of the first tuple whose end is not below [ipNum], passing
    over those that end below it; the start of the tuple is not looked
    at. *)
Theorem lookupIP_end_bound_only (self : Table) (ipStr key : str) (ipNum : Z)
    (fuel : nat) (pre post : list IpInfo) (r : IpInfo) :
  ipStrToIntAndKey ipStr = Return (Some ipNum, Some key) →
  findChain fuel (ipDict self) ipNum key = Return (pre ++ r :: post) →
  Forall (fun x => endIp x < ipNum) pre →
  ipNum <= endIp r →
  lookupIP fuel self ipStr =
    Return (twoLetter r, country r, state r, city r,
            lat r, long r, zip r, timezone r,
            countryPhone r, areaPhone r).
Proof.
  intros Hparse Hfind Hpre Hr.
  rewrite (lookupIP_parsed _ _ _ ipNum key) by done.
  rewrite Hfind. cbn [Py.bind].
  exact (scanChain_first ipNum pre r post Hpre Hr).
Qed.

(** The address 1.0.1.128 lies between the Brisbane and the Fuzhou
    range; the Fuzhou tuple is returned though it starts above it. *)
Lemma lookupIP_end_bound_only_witness :
  16777600 < 16778240 ∧
  ipDict sampleTable !! KStr (lit "0016") =
    Some [infoOf rowBrisbane; infoOf rowFuzhou; infoOf rowTokyo] ∧
  startIp (infoOf rowFuzhou) = 16778240 ∧
  lookupIP 1 sampleTable (lit "1.0.1.128") =
    Return (lit "CN", lit "China", lit "Fujian", lit "Fuzhou",
            FDec false 26061390 (-6), FDec false 119306110 (-6),
            lit "350004", lit "+08:00", lit "86", lit "0591").
Proof.
  split; [reflexivity|]. split; [reflexivity|]. split; [reflexivity|].
  apply (lookupIP_end_bound_only sampleTable (lit "1.0.1.128") (lit "0016")
           16777600 1 [infoOf rowBrisbane] [infoOf rowTokyo] (infoOf rowFuzhou)).
  - reflexivity.
  - reflexivity.
  - repeat constructor.
  - simpl. lia.
Defined.

(** When no bucket admits the address number, [lookupIP] neither
    returns nor raises, whatever the budget. *)
Lemma lookupIP_all_passed_over (self : Table) (ipStr key : str) (ipNum : Z) :
  ipStrToIntAndKey ipStr = Return (Some ipNum, Some key) →
  (∀ k, keyShape k → passedOver (ipDict self) ipNum k) →
  ∀ fuel, lookupIP fuel self ipStr = OutOfFuel.
Proof.
  intros Hparse Hall fuel.
  rewrite (lookupIP_parsed _ _ _ ipNum key) by done.
  rewrite findChain_diverges; [done|done|].
  by apply (ipStrToIntAndKey_keyShape ipStr ipNum).
Qed.

(** The buckets of the sample table. *)
Lemma sampleTable_ipDict :
  ipDict sampleTable =
    <[KStr (lit "2873") := [infoOf rowStanford]]>
      (<[KStr (lit "0017") := [infoOf rowBangkok]]>
         (<[KStr (lit "0016") :=
              [infoOf rowBrisbane; infoOf rowFuzhou; infoOf rowTokyo]]>
            {[KInt 0 := []]})).
Proof. vm_compute. reflexivity. Qed.

(** C3. The loop of [lookupIP] does not end for the address 0.0.0.5 on
    the sample table: no bucket starts at or below 5, the key passes
    "0000" and goes on through "-001", "-002", ..., and no budget yields
    an outcome. *)
Theorem lookupIP_low_address_never_ends :
  ∀ fuel, lookupIP fuel sampleTable (lit "0.0.0.5") = OutOfFuel.
Proof.
  apply (lookupIP_all_passed_over sampleTable (lit "0.0.0.5") (lit "0000") 5);
    [reflexivity|].
  intros k _. unfold passedOver. rewrite sampleTable_ipDict.
  destruct (decide (k = lit "2873")) as [->|H1].
  { right. eexists _, _. rewrite lookup_insert_eq. split; reflexivity. }
  rewrite lookup_insert_ne by congruence.
  destruct (decide (k = lit "0017")) as [->|H2].
  { right. eexists _, _. rewrite lookup_insert_eq. split; reflexivity. }
  rewrite lookup_insert_ne by congruence.
  destruct (decide (k = lit "0016")) as [->|H3].
  { right. eexists _, _. rewrite lookup_insert_eq. split; reflexivity. }
  rewrite lookup_insert_ne by congruence.
  left. by rewrite lookup_singleton_ne.
Qed.

(** C4. When the loop has selected a bucket and every tuple in it ends
    below [ipNum], [lookupIP] raises [KeyError]. *)
Theorem lookupIP_gap (self : Table) (ipStr key : str) (ipNum : Z)
    (fuel : nat) (chain : list IpInfo) :
  ipStrToIntAndKey ipStr = Return (Some ipNum, Some key) →
  findChain fuel (ipDict self) ipNum key = Return chain →
  Forall (fun x => endIp x < ipNum) chain →
  lookupIP fuel self ipStr = Raise KeyError.
Proof.
  intros Hparse Hfind Hall.
  rewrite (lookupIP_parsed _ _ _ ipNum key) by done.
  rewrite Hfind. simpl. by apply scanChain_none.
Qed.

Lemma lookupIP_gap_witness :
  lookupIP 1 sampleTable (lit "1.4.236.229") = Raise KeyError.
Proof.
  apply (lookupIP_gap sampleTable (lit "1.4.236.229") (lit "0017") 17100005 1
           [infoOf rowBangkok]).
  - reflexivity.
  - reflexivity.
  - repeat constructor.
Defined.

(** C5. [get] returns the default exactly when [lookupIP] raises
    [KeyError], returns the tuple of [lookupIP] when there is one, and
    lets [ValueError] through. *)
Theorem get_agrees_with_lookupIP {D : Type} (fuel : nat) (self : Table)
    (ipStr : str) (default : D) :
  (lookupIP fuel self ipStr = Raise KeyError ↔
   get fuel self ipStr default = Return (inr default)) ∧
  (∀ loc, lookupIP fuel self ipStr = Return loc ↔
          get fuel self ipStr default = Return (inl loc)) ∧
  (lookupIP fuel self ipStr = Raise ValueError ↔
   get fuel self ipStr default = Raise ValueError).
Proof.
  unfold get.
  destruct (lookupIP fuel self ipStr) as [loc|[]|]; repeat split;
    intros; simplify_eq; done.
Qed.

(** C8. [lookupIP] raises [ValueError] when the string does not split
    into four components at its dots, and when it does but a component
    is not an integer numeral; when all four components are numerals,
    whatever their values, it does not raise [ValueError]. *)
Theorem lookupIP_invalid_address (fuel : nat) (self : Table) (ipStr : str) :
  (length (Py.split "."%char ipStr) ≠ 4%nat →
   lookupIP fuel self ipStr = Raise ValueError) ∧
  (∀ o0 o1 o2 o3, Py.split "."%char ipStr = [o0; o1; o2; o3] →
     Py.int o0 = None ∨ Py.int o1 = None ∨ Py.int o2 = None ∨ Py.int o3 = None →
     lookupIP fuel self ipStr = Raise ValueError) ∧
  (∀ o0 o1 o2 o3, Py.split "."%char ipStr = [o0; o1; o2; o3] →
     is_Some (Py.int o0) → is_Some (Py.int o1) →
     is_Some (Py.int o2) → is_Some (Py.int o3) →
     lookupIP fuel self ipStr ≠ Raise ValueError).
Proof.
  split; [|split].
  - intros H. unfold lookupIP. by rewrite ipStrToIntAndKey_not_four.
  - intros o0 o1 o2 o3 Hs Hbad. unfold lookupIP.
    by rewrite (ipStrToIntAndKey_bad_octet ipStr o0 o1 o2 o3).
  - intros o0 o1 o2 o3 Hs [n0 H0] [n1 H1] [n2 H2] [n3 H3].
    pose proof (ipStrToIntAndKey_four ipStr o0 o1 o2 o3 n0 n1 n2 n3
                  Hs H0 H1 H2 H3) as Hparse.
    cbv zeta in Hparse.
    set (ipNum := n3 + n2 * 256 + n1 * 256 * 256 + n0 * 256 * 256 * 256) in *.
    rewrite (lookupIP_parsed _ _ _ _ _ Hparse).
    pose proof (ipStrToIntAndKey_keyShape _ _ _ Hparse) as Hk.
    pose proof (findChain_not_ValueError fuel (ipDict self) ipNum _ Hk) as Hf.
    destruct (findChain fuel (ipDict self) ipNum _) as [chain|e|]; simpl.
    + apply scanChain_not_ValueError.
    + congruence.
    + done.
Qed.

Lemma lookupIP_invalid_address_witness :
  lookupIP 1 sampleTable (lit "1.2.3") = Raise ValueError ∧
  lookupIP 1 sampleTable (lit "1.2.3.4.5") = Raise ValueError ∧
  lookupIP 1 sampleTable (lit "not.an.ip.addr") = Raise ValueError ∧
  lookupIP 3000 sampleTable (lit "300.1.1.999") ≠ Raise ValueError.
Proof.
  split; [|split; [|split]].
  - apply (proj1 (lookupIP_invalid_address 1 sampleTable (lit "1.2.3"))).
    vm_compute. lia.
  - apply (proj1 (lookupIP_invalid_address 1 sampleTable (lit "1.2.3.4.5"))).
    vm_compute. lia.
  - apply (proj1 (proj2 (lookupIP_invalid_address 1 sampleTable
                           (lit "not.an.ip.addr")))
             (lit "not") (lit "an") (lit "ip") (lit "addr")).
    + reflexivity.
    + left. reflexivity.
  - apply (proj2 (proj2 (lookupIP_invalid_address 3000 sampleTable
                           (lit "300.1.1.999")))
             (lit "300") (lit "1") (lit "1") (lit "999"));
      [reflexivity | by eexists ..].
Defined.

(* ===================================================================== *)
(** ** The loader                                                         *)
(* ===================================================================== *)

Section Loader.
Import Py.
Implicit Types (st : Loader) (line : list str) (lines : list (list str)).

Lemma loadLine_skip st line : skipLine line = true → loadLine st line = Return st.
Proof. intros H. unfold loadLine. by rewrite H. Qed.

Lemma loadLine_blank st : loadLine st [] = Return st.
Proof. reflexivity. Qed.

Lemma loadLine_first_zero st rest : loadLine st (lit "0" :: rest) = Return st.
Proof. reflexivity. Qed.

Lemma loadLine_first_hash st rest : loadLine st (lit "#" :: rest) = Return st.
Proof. reflexivity. Qed.

(** A row that does not unpack into twelve names. *)
Lemma loadLine_wrong_count st line :
  length line ≠ 12%nat → loadLine st line = Return st.
Proof.
  intros H. unfold loadLine. destruct (skipLine line); [done|].
  do 12 (destruct line as [|? line]; [done|]).
  destruct line; [done|reflexivity].
Qed.

Lemma rowEntry_wrong_count line :
  length line ≠ 12%nat → rowEntry line = Return None.
Proof.
  intros H. unfold rowEntry. destruct (skipLine line); [done|].
  do 12 (destruct line as [|? line]; [done|]).
  destruct line; [done|reflexivity].
Qed.

Lemma loadLines_app lines1 : ∀ st lines2,
  loadLines st (lines1 ++ lines2) =
    (st' <- loadLines st lines1 ;; loadLines st' lines2).
Proof.
  induction lines1 as [|line lines1 IH]; intros st lines2; simpl; [done|].
  destruct (loadLine st line) as [st'| |]; simpl; [apply IH|done|done].
Qed.

(** The loop body in terms of what the row contributes. *)
Lemma loadLine_rowEntry st line :
  currentBucketExists st →
  loadLine st line =
    (e <- rowEntry line ;;
     Return (match e with Some x => pushEntry st x | None => st end)).
Proof.
  intros Hcur. unfold loadLine, rowEntry.
  destruct (skipLine line); [done|].
  do 12 (destruct line as [|? line]; [done|]).
  destruct line; [|done].
  set (k := hashKeyOf _).
  destruct (bool_decide (KStr k ≠ currKey st)) eqn:Hne.
  - apply bool_decide_eq_true in Hne.
    rewrite lookup_insert_eq.
    destruct (makeIpInfo _ _ _ _ _ _ _ _ _ _ _ _) as [info| |] eqn:Hinfo;
      [|done|done].
    cbn [bind]. unfold pushEntry.
    rewrite decide_False by done.
    rewrite insert_insert_eq.
    unfold makeIpInfo in Hinfo.
    repeat (case_outcome; try discriminate).
    by injection Hinfo as <-.
  - apply bool_decide_eq_false in Hne.
    assert (Hk : currKey st = KStr k).
    { destruct (decide (currKey st = KStr k)); [done|]. by destruct Hne. }
    destruct (Hcur k Hk) as [bucket Hb]. rewrite Hb.
    destruct (makeIpInfo _ _ _ _ _ _ _ _ _ _ _ _) as [info| |] eqn:Hinfo;
      [|done|done].
    cbn [bind]. unfold pushEntry.
    rewrite decide_True by done. rewrite Hb, Hk. simpl.
    unfold makeIpInfo in Hinfo.
    repeat (case_outcome; try discriminate).
    by injection Hinfo as <-.
Qed.

Lemma initial_currentBucketExists : currentBucketExists initial.
Proof. intros k H. discriminate. Qed.

Lemma pushEntry_currentBucketExists st e : currentBucketExists (pushEntry st e).
Proof.
  destruct e as [k info]. intros k' [= <-]. simpl.
  rewrite lookup_insert_eq. eauto.
Qed.

Lemma loadLines_entries lines : ∀ st,
  currentBucketExists st →
  loadLines st lines =
    (es <- entries lines ;; Return (foldl pushEntry st es)).
Proof.
  induction lines as [|line lines IH]; intros st Hcur; simpl; [done|].
  rewrite loadLine_rowEntry by done.
  destruct (rowEntry line) as [[e|]| |]; simpl; try done.
  - rewrite IH by apply pushEntry_currentBucketExists.
    by destruct (entries lines).
  - rewrite IH by done. by destruct (entries lines).
Qed.

Lemma load_entries lines :
  __init__ lines =
    (es <- entries lines ;; Return (table (foldl pushEntry initial es))).
Proof.
  unfold __init__. rewrite loadLines_entries by apply initial_currentBucketExists.
  by destruct (entries lines).
Qed.

End Loader.

(** C6, as the code has it. A row with a number of fields other than
    twelve is passed over and the load goes on: the table is the one
    loaded from the file without that row. *)
Theorem load_skips_wrong_field_count (pre post : list (list str)) (bad : list str) :
  length bad ≠ 12%nat →
  __init__ (pre ++ bad :: post) = __init__ (pre ++ post).
Proof.
  intros Hbad. unfold __init__. rewrite !loadLines_app.
  destruct (loadLines initial pre) as [st| |]; simpl; [|done|done].
  by rewrite loadLine_wrong_count.
Qed.

Lemma load_skips_wrong_field_count_witness :
  __init__ [rowBrisbane; rowShort; rowFuzhou] = __init__ [rowBrisbane; rowFuzhou].
Proof.
  apply (load_skips_wrong_field_count [rowBrisbane] [rowFuzhou] rowShort).
  simpl. lia.
Defined.

(** C6 as stated fails: a row of twelve fields whose start address, or
    whose latitude, is not a number does not get skipped. The
    [ValueError] of the conversion leaves the constructor, although the
    file without that row loads. *)
Lemma load_conversion_failure_aborts :
  length rowBadStart = 12%nat ∧
  Py.int (Py.strip_quote (lit "16M")) = None ∧
  __init__ [rowBrisbane; rowBadStart; rowFuzhou] = Raise ValueError ∧
  length rowBadLat = 12%nat ∧
  Py.float (lit "north") = None ∧
  __init__ [rowBrisbane; rowBadLat; rowFuzhou] = Raise ValueError ∧
  ∃ t, __init__ [rowBrisbane; rowFuzhou] = Return t ∧
       ipDict t !! KStr (lit "0016") = Some [infoOf rowBrisbane; infoOf rowFuzhou].
Proof.
  repeat split; try reflexivity.
  eexists. split; reflexivity.
Qed.

Section Buckets.
Import Py.
Implicit Types (st : Loader) (es : list (str * IpInfo)).

Lemma pushEntry_bucket st k info :
  ipDict (table (pushEntry st (k, info))) !! KStr k =
    Some ((if decide (currKey st = KStr k)
           then default [] (ipDict (table st) !! KStr k) else []) ++ [info]).
Proof. simpl. by rewrite lookup_insert_eq. Qed.

Lemma pushEntry_other st e key :
  key ≠ KStr e.1 →
  ipDict (table (pushEntry st e)) !! key = ipDict (table st) !! key.
Proof. destruct e as [k info]. intros H. simpl. by rewrite lookup_insert_ne. Qed.

Lemma pushEntry_currKey st e : currKey (pushEntry st e) = KStr e.1.
Proof. by destruct e. Qed.

(** After a non-empty run of rows the current key is that of the last. *)
Lemma foldl_pushEntry_currKey es : ∀ st e,
  last es = Some e → currKey (foldl pushEntry st es) = KStr e.1.
Proof.
  induction es as [|x es IH] using rev_ind; intros st e H; [done|].
  rewrite last_snoc in H. injection H as ->.
  rewrite foldl_app. simpl. apply pushEntry_currKey.
Qed.

(** Rows of other keys leave a bucket as it is. *)
Lemma foldl_pushEntry_other es : ∀ st k,
  Forall (fun e => e.1 ≠ k) es →
  ipDict (table (foldl pushEntry st es)) !! KStr k = ipDict (table st) !! KStr k.
Proof.
  induction es as [|x es IH]; intros st k H; simpl; [done|].
  inversion H as [|? ? Hx Hes]; subst.
  rewrite IH by done. apply pushEntry_other. congruence.
Qed.

(** Rows of the current key are appended to its bucket. *)
Lemma foldl_pushEntry_continue es : ∀ st k bucket,
  currKey st = KStr k →
  ipDict (table st) !! KStr k = Some bucket →
  Forall (fun e => e.1 = k) es →
  currKey (foldl pushEntry st es) = KStr k ∧
  ipDict (table (foldl pushEntry st es)) !! KStr k = Some (bucket ++ es.*2).
Proof.
  induction es as [|[k' info] es IH]; intros st k bucket Hcur Hb H.
  - simpl. by rewrite app_nil_r.
  - inversion H as [|? ? Hx Hes]; simpl in Hx; subst.
    destruct (IH (pushEntry st (k, info)) k (bucket ++ [info]))
      as [Hc Hl]; try done.
    + rewrite pushEntry_bucket, decide_True by done. by rewrite Hb.
    + split; [done|]. rewrite fmap_cons. cbn [foldl snd].
      by rewrite Hl, <- app_assoc.
Qed.

(** A run of rows of one key that starts under another current key
    makes up the whole bucket. *)
Lemma foldl_pushEntry_run es st k :
  currKey st ≠ KStr k →
  es ≠ [] →
  Forall (fun e => e.1 = k) es →
  currKey (foldl pushEntry st es) = KStr k ∧
  ipDict (table (foldl pushEntry st es)) !! KStr k = Some (es.*2).
Proof.
  intros Hcur Hne H. destruct es as [|[k' info] es]; [done|].
  inversion H as [|? ? Hx Hes]; simpl in Hx; subst. simpl foldl.
  apply (foldl_pushEntry_continue es (pushEntry st (k, info)) k [info]);
    try done.
  by rewrite pushEntry_bucket, decide_False.
Qed.

End Buckets.

Section SkipRules.
Import Py.
Implicit Types (st : Loader) (line : list str).

Lemma lstrip_snoc p c s :
  p c = false → lstrip p (s ++ [c]) = lstrip p s ++ [c].
Proof.
  intros Hc. induction s as [|x s IH]; simpl.
  - by rewrite Hc.
  - destruct (p x); [apply IH|done].
Qed.

(** Stripping leaves a first character that is not stripped in place. *)
Lemma strip_by_cons p c s :
  p c = false → strip_by p (c :: s) = c :: rstrip p s.
Proof.
  intros Hc. unfold strip_by, rstrip. simpl. rewrite Hc. simpl.
  by rewrite lstrip_snoc, rev_app_distr.
Qed.

(** A field that begins with [#] is not a number. *)
Lemma int_strip_quote_hash rest : int (strip_quote ("#"%char :: rest)) = None.
Proof.
  unfold strip_quote, strip. rewrite strip_by_cons by reflexivity.
  unfold int. by rewrite strip_by_cons.
Qed.

(** A row whose first field begins with [#] never adds a tuple: it is
    passed over, or the constructor raises. *)
Lemma loadLine_comment_adds_nothing st rest fields st' :
  loadLine st (("#"%char :: rest) :: fields) = Return st' → st' = st.
Proof.
  unfold loadLine. destruct (skipLine _); [by intros [= <-]|].
  do 11 (destruct fields as [|? fields]; [by intros [= <-]|]).
  destruct fields; [|by intros [= <-]].
  destruct (bool_decide _); (destruct (_ !! _); [|done]);
    unfold makeIpInfo; by rewrite int_strip_quote_hash.
Qed.

(** What a row of twelve fields yields, field by field. *)
Lemma rowEntry_fields startIPStr endIPStr twoLetterCountry country state city
    latitude longitude zipcode timezone country_phone_code area_code k r :
  rowEntry [startIPStr; endIPStr; twoLetterCountry; country; state; city;
     latitude; longitude; zipcode; timezone; country_phone_code; area_code] = Return (Some (k, r)) →
  k = take 4 (zfill 10 (strip_quote startIPStr)) ∧
  ∃ s e la lo,
    int (strip_quote startIPStr) = Some s ∧
    int (strip_quote endIPStr) = Some e ∧
    float latitude = Some la ∧ float longitude = Some lo ∧
    r = (mkIpInfo s e (strip_quote twoLetterCountry) (strip_quote country)
       (strip_quote state) (strip_quote city) la lo
       (strip_quote zipcode) (strip_quote timezone)
       (strip_quote country_phone_code) (strip_quote area_code)).
Proof.
  unfold rowEntry. destruct (skipLine _); [discriminate|].
  unfold makeIpInfo.
  repeat (case_outcome; try discriminate).
  intros [= <- <-]. split; [reflexivity|].
  by eexists _, _, _, _.
Qed.

Lemma rowEntry_converts startIPStr endIPStr twoLetterCountry country state city
    latitude longitude zipcode timezone country_phone_code area_code s e la lo :
  skipLine [startIPStr; endIPStr; twoLetterCountry; country; state; city;
     latitude; longitude; zipcode; timezone; country_phone_code; area_code] = false →
  int (strip_quote startIPStr) = Some s →
  int (strip_quote endIPStr) = Some e →
  float latitude = Some la → float longitude = Some lo →
  rowEntry [startIPStr; endIPStr; twoLetterCountry; country; state; city;
     latitude; longitude; zipcode; timezone; country_phone_code; area_code] =
    Return (Some (take 4 (zfill 10 (strip_quote startIPStr)),
                  (mkIpInfo s e (strip_quote twoLetterCountry) (strip_quote country)
                   (strip_quote state) (strip_quote city) la lo
                   (strip_quote zipcode) (strip_quote timezone)
                   (strip_quote country_phone_code) (strip_quote area_code)))).
Proof.
  intros Hskip Hs He Hla Hlo. unfold rowEntry, makeIpInfo.
  by rewrite Hskip, Hs, He, Hla, Hlo.
Qed.

(** X15. A row of twelve fields that is not skipped and whose numeric
    fields convert adds exactly one tuple, made of its converted and
    stripped fields: the bucket of its key is the bucket as it was with
    that tuple appended when the key is the current one, and that tuple
    alone otherwise; no other bucket is touched. *)
Lemma loadLine_appends_one st startIPStr endIPStr twoLetterCountry country state city
    latitude longitude zipcode timezone country_phone_code area_code
    s e la lo :
  skipLine [startIPStr; endIPStr; twoLetterCountry; country; state; city;
     latitude; longitude; zipcode; timezone; country_phone_code; area_code] = false →
  int (strip_quote startIPStr) = Some s →
  int (strip_quote endIPStr) = Some e →
  float latitude = Some la → float longitude = Some lo →
  currentBucketExists st →
  let k := take 4 (zfill 10 (strip_quote startIPStr)) in
  let info :=
    (mkIpInfo s e (strip_quote twoLetterCountry) (strip_quote country)
       (strip_quote state) (strip_quote city) la lo
       (strip_quote zipcode) (strip_quote timezone)
       (strip_quote country_phone_code) (strip_quote area_code)) in
  ∃ st',
    loadLine st [startIPStr; endIPStr; twoLetterCountry; country; state; city;
     latitude; longitude; zipcode; timezone; country_phone_code; area_code] = Return st' ∧
    (currKey st = KStr k →
       ∃ old, ipDict (table st) !! KStr k = Some old ∧
              ipDict (table st') !! KStr k = Some (old ++ [info])) ∧
    (currKey st ≠ KStr k → ipDict (table st') !! KStr k = Some [info]) ∧
    (∀ key, key ≠ KStr k →
       ipDict (table st') !! key = ipDict (table st) !! key).
Proof.
  intros Hskip Hs He Hla Hlo Hcur k info.
  rewrite loadLine_rowEntry by done.
  rewrite (rowEntry_converts _ _ _ _ _ _ _ _ _ _ _ _ s e la lo) by done.
  cbn [bind]. fold k. fold info.
  eexists. split; [reflexivity|]. split; [|split].
  - intros Hk. destruct (Hcur k Hk) as [old Hold]. exists old.
    split; [done|]. rewrite pushEntry_bucket, decide_True by done.
    by rewrite Hold.
  - intros Hk. by rewrite pushEntry_bucket, decide_False.
  - intros key Hkey. by apply pushEntry_other.
Qed.

End SkipRules.

(** C9, at a comment line with eleven commas: the first field begins
    with [#] but is not equal to it, the row unpacks, and the conversion
    of its first field raises [ValueError] out of the constructor. The
    row is not skipped; the same file without it loads. *)
Theorem load_comment_line_raises :
  (∃ rest, hd [] rowComment = "#"%char :: rest) ∧
  skipLine rowComment = false ∧
  __init__ [rowBrisbane; rowComment; rowFuzhou] = Raise ValueError ∧
  __init__ [rowBrisbane; rowFuzhou] = Return (tableOf (__init__ [rowBrisbane; rowFuzhou])).
Proof.
  split; [by eexists|]. repeat split; reflexivity.
Qed.


(** C10. A kept row whose key is not the current one finds its bucket
    made empty before its tuple is appended; so after a load that
    succeeds, the bucket of a key holds exactly the tuples of the last
    unbroken run of kept rows with that key (rows of the same key before
    that run are gone), and a key no kept row has is not in the table. *)
Theorem load_bucket_is_last_run :
  (∀ st line k info,
     rowEntry line = Return (Some (k, info)) →
     currentBucketExists st →
     currKey st ≠ KStr k →
     ∃ st', loadLine st line = Return st' ∧
            ipDict (table st') !! KStr k = Some [info]) ∧
  (∀ lines tbl,
     __init__ lines = Return tbl →
     ∃ es, entries lines = Return es ∧
       (∀ k, Forall (fun e => e.1 ≠ k) es → ipDict tbl !! KStr k = None) ∧
       (∀ k pre run post,
          es = pre ++ run ++ post →
          run ≠ [] →
          Forall (fun e => e.1 = k) run →
          Forall (fun e => e.1 ≠ k) post →
          (∀ e, last pre = Some e → e.1 ≠ k) →
          ipDict tbl !! KStr k = Some (run.*2))).
Proof.
  split.
  - intros st line k info Hrow Hcur Hne.
    rewrite loadLine_rowEntry, Hrow by done. cbn [Py.bind].
    eexists; split; [reflexivity|].
    by rewrite pushEntry_bucket, decide_False.
  - intros lines tbl Hload. rewrite load_entries in Hload.
    destruct (entries lines) as [es| |]; simpl in Hload; try discriminate.
    injection Hload as <-. exists es. split; [done|]. split.
    + intros k Hk. by rewrite foldl_pushEntry_other.
    + intros k pre run post -> Hne Hrun Hpost Hpre.
      rewrite !foldl_app, foldl_pushEntry_other by done.
      apply foldl_pushEntry_run; try done.
      destruct (last pre) as [e|] eqn:Hlast.
      * rewrite (foldl_pushEntry_currKey pre initial e Hlast).
        intros [= Heq]. by apply (Hpre e).
      * apply last_None in Hlast as ->. done.
Qed.

(** Brisbane and Fuzhou share the key 0016, Bangkok (key 0017) lies
    between them in the file: only Fuzhou is left in bucket 0016. *)
Lemma load_bucket_is_last_run_witness :
  ipDict (tableOf (__init__ [rowBrisbane; rowBangkok; rowFuzhou]))
    !! KStr (lit "0016") = Some [infoOf rowFuzhou].
Proof.
  destruct (proj2 load_bucket_is_last_run
              [rowBrisbane; rowBangkok; rowFuzhou]
              (tableOf (__init__ [rowBrisbane; rowBangkok; rowFuzhou]))
              eq_refl) as (es & Hes & _ & Hrun).
  injection Hes as <-.
  apply (Hrun (lit "0016")
           [(lit "0016", infoOf rowBrisbane); (lit "0017", infoOf rowBangkok)]
           [(lit "0016", infoOf rowFuzhou)] []).
  - reflexivity.
  - done.
  - repeat constructor.
  - constructor.
  - intros e [= <-]. simpl. intros H. discriminate H.
Defined.

(* ===================================================================== *)
(** ** Further properties of the lookup keys                              *)
(* ===================================================================== *)

Section KeyNumbers.
Import Py.

Lemma digits_value_zeros n s :
  digits_value 0 (replicate n "0"%char ++ s) = digits_value 0 s.
Proof. induction n as [|n IH]; simpl; [done|]. exact IH. Qed.

(** The value read with an accumulator, in terms of the value read
    from zero. *)
Lemma digits_value_acc s : ∀ acc v,
  digits_value acc s = Some v →
  ∃ w, digits_value 0 s = Some w ∧
       (v = acc * 10 ^ N.of_nat (length s) + w)%N ∧
       (w < 10 ^ N.of_nat (length s))%N.
Proof.
  induction s as [|c s IH]; intros acc v H; simpl in *.
  - injection H as <-. exists 0%N. repeat split; lia.
  - destruct (is_digit c) eqn:Hc; [|done].
    destruct (IH _ _ H) as (w & Hw & Hv & Hlt).
    destruct (digits_value (0 * 10 + digit_val c) s) as [w'|] eqn:E.
    + destruct (IH _ _ E) as (w2 & Hw2 & Hv2 & Hlt2).
      rewrite Hw in Hw2. injection Hw2 as <-.
      exists w'. split; [done|].
      assert (Hd : (digit_val c < 10)%N).
      { unfold is_digit, digit_val in *.
        apply andb_true_iff in Hc as [_ Hc]. apply N.leb_le in Hc. lia. }
      rewrite Nat2N.inj_succ, N.pow_succ_r'. nia.
    + exfalso. pose proof (digits_value_total s (0 * 10 + digit_val c)%N) as Ht.
      destruct Ht as [? Ht]; [|congruence].
      clear -Hw. revert Hw. generalize 0%N. induction s as [|x s IHs]; simpl.
      * constructor.
      * intros a. destruct (is_digit x) eqn:Hx; [|done].
        intros Hs. constructor; [done|]. by apply (IHs _ Hs).
Qed.

(** The value of a prefix is the value of the whole divided by the
    weight of what follows. *)
Lemma digits_value_prefix s1 s2 v :
  digits_value 0 (s1 ++ s2) = Some v →
  digits_value 0 s1 = Some (v / 10 ^ N.of_nat (length s2))%N.
Proof.
  rewrite digits_value_app. intros H.
  destruct (digits_value 0 s1) as [v1|] eqn:E1; [|done]. simpl in H.
  destruct (digits_value_acc s2 v1 v H) as (w & _ & -> & Hlt).
  f_equal. apply (N.div_unique _ _ _ w); lia.
Qed.

Lemma digits_aux_length fuel : ∀ n k,
  (n < 10 ^ N.of_nat (S k))%N → (length (digits_aux fuel n []) <= S k)%nat.
Proof.
  induction fuel as [|f IH]; intros n k Hn; simpl; [lia|].
  destruct (n / 10 =? 0)%N eqn:Hq; [simpl; lia|].
  apply N.eqb_neq in Hq.
  rewrite digits_aux_app, length_app. simpl.
  rewrite Nat2N.inj_succ, N.pow_succ_r' in Hn.
  assert (Hdiv : (n / 10 < 10 ^ N.of_nat k)%N)
    by (apply N.Div0.div_lt_upper_bound; lia).
  destruct k as [|k].
  - change (10 ^ N.of_nat 0)%N with 1%N in Hdiv.
    revert Hq Hdiv. generalize (n / 10)%N. lia.
  - specialize (IH _ _ Hdiv). lia.
Qed.

Lemma str_N_length n k :
  (n < 10 ^ N.of_nat (S k))%N → (length (str_N n) <= S k)%nat.
Proof. apply digits_aux_length. Qed.

Lemma zfill_digits w s :
  s ≠ [] → Forall (fun c => is_digit c = true) s → (length s <= w)%nat →
  zfill w s = replicate (w - length s) "0"%char ++ s.
Proof.
  intros Hne Hd Hl. unfold zfill.
  destruct (w <=? length s)%nat eqn:E.
  - apply Nat.leb_le in E. by replace (w - length s)%nat with 0%nat by lia.
  - destruct s as [|c s]; [done|].
    inversion Hd as [|? ? Hc _]; subst. by rewrite (is_digit_not_sign c Hc).
Qed.

Lemma zfill_minus_digits w s :
  (S (length s) <= w)%nat →
  zfill w ("-"%char :: s) = "-"%char :: replicate (w - S (length s)) "0"%char ++ s.
Proof.
  intros Hl. unfold zfill. simpl length.
  destruct (w <=? S (length s))%nat eqn:E; [|done].
  apply Nat.leb_le in E. by replace (w - S (length s))%nat with 0%nat by lia.
Qed.

(** The first four of the ten zero-filled digits of a number below
    [10^10] spell that number divided by a million. *)
Lemma int_key_of_number n :
  (n < 10 ^ 10)%N →
  int (take 4 (zfill 10 (str_N n))) = Some (Z.of_N (n / 1000000)).
Proof.
  intros Hn.
  pose proof (str_N_digits n) as Hd. pose proof (str_N_nonempty n) as Hne.
  pose proof (str_N_length n 9 Hn) as Hl.
  pose proof (parse_digits_str_N n) as Hv.
  set (s := str_N n) in *.
  rewrite zfill_digits by done.
  set (z := replicate (10 - length s) "0"%char ++ s).
  assert (Hz : Forall (fun c => is_digit c = true) z).
  { apply Forall_app; split; [by apply Forall_replicate|done]. }
  assert (Hzl : length z = 10%nat).
  { unfold z. rewrite length_app, length_replicate. lia. }
  assert (Hzv : digits_value 0 z = Some n).
  { unfold z. rewrite digits_value_zeros. by destruct s. }
  rewrite <- (take_drop 4 z) in Hzv.
  apply digits_value_prefix in Hzv.
  rewrite length_drop, Hzl in Hzv. change (10 ^ N.of_nat (10 - 4))%N with 1000000%N in Hzv.
  rewrite int_digits.
  - unfold parse_digits. destruct (take 4 z) eqn:E.
    + apply (f_equal length) in E. rewrite length_take, Hzl in E. discriminate E.
    + by rewrite Hzv.
  - intros E. apply (f_equal length) in E.
    rewrite length_take, Hzl in E. discriminate E.
  - by apply Forall_take.
Qed.

(** A number from -999 to 9999 is read back from its four-character key. *)
Lemma int_key4 m :
  -999 <= m <= 9999 → int (take 4 (zfill 4 (str_of_int m))) = Some m.
Proof.
  intros Hm. unfold str_of_int. destruct (m <? 0) eqn:Hneg.
  - apply Z.ltb_lt in Hneg.
    pose proof (str_N_digits (Z.to_N (- m))) as Hd.
    pose proof (parse_digits_str_N (Z.to_N (- m))) as Hv.
    assert (Hl : (length (str_N (Z.to_N (- m))) <= 3)%nat).
    { apply str_N_length. simpl. lia. }
    pose proof (str_N_nonempty (Z.to_N (- m))) as Hne.
    set (s := str_N (Z.to_N (- m))) in *.
    rewrite zfill_minus_digits by lia.
    rewrite take_ge by (simpl; rewrite length_app, length_replicate; lia).
    rewrite int_minus_digits
      by (apply Forall_app; split; [by apply Forall_replicate|done]).
    assert (parse_digits (replicate (4 - S (length s)) "0"%char ++ s)
            = Some (Z.to_N (- m))) as ->.
    { unfold parse_digits.
      destruct (replicate _ _ ++ s) eqn:E.
      - apply app_eq_nil in E as [_ ?]. done.
      - rewrite <- E, digits_value_zeros. by destruct s. }
    simpl. f_equal. lia.
  - apply Z.ltb_ge in Hneg.
    pose proof (str_N_digits (Z.to_N m)) as Hd.
    pose proof (parse_digits_str_N (Z.to_N m)) as Hv.
    assert (Hl : (length (str_N (Z.to_N m)) <= 4)%nat).
    { apply str_N_length. simpl. lia. }
    pose proof (str_N_nonempty (Z.to_N m)) as Hne.
    set (s := str_N (Z.to_N m)) in *.
    rewrite zfill_digits by done.
    rewrite take_ge by (rewrite length_app, length_replicate; lia).
    rewrite int_digits.
    + assert (parse_digits (replicate (4 - length s) "0"%char ++ s)
              = Some (Z.to_N m)) as ->.
      { unfold parse_digits.
        destruct (replicate _ _ ++ s) eqn:E.
        - apply app_eq_nil in E as [_ ?]. done.
        - rewrite <- E, digits_value_zeros. by destruct s. }
      simpl. f_equal. lia.
    + intros E. apply app_eq_nil in E as [_ ?]. done.
    + apply Forall_app; split; [by apply Forall_replicate|done].
Qed.

(** The number a key spells lies between -999 and 9999. *)
Lemma keyShape_int_range k v :
  keyShape k → int k = Some v → -999 <= v <= 9999.
Proof.
  intros [[Hlen Hd] | (t & -> & Hlen & Hd)] Hv.
  - rewrite int_digits in Hv; [|by destruct k|done].
    unfold parse_digits in Hv. destruct k as [|c k'] eqn:Ek; [done|].
    rewrite <- Ek in *. clear Ek.
    destruct (digits_value 0 k) as [w|] eqn:E; [|done].
    destruct (digits_value_acc k 0 w E) as (x & Hx & _ & Hlt).
    rewrite E in Hx. injection Hx as <-.
    rewrite Hlen in Hlt. simpl in Hv. injection Hv as <-.
    change (10 ^ N.of_nat 4)%N with 10000%N in Hlt. lia.
  - rewrite int_minus_digits in Hv by done.
    unfold parse_digits in Hv. destruct t as [|c t'] eqn:Et; [done|].
    rewrite <- Et in *. clear Et.
    destruct (digits_value 0 t) as [w|] eqn:E; [|done].
    destruct (digits_value_acc t 0 w E) as (x & Hx & _ & Hlt).
    rewrite E in Hx. injection Hx as <-.
    rewrite Hlen in Hlt. simpl in Hv. injection Hv as <-.
    change (10 ^ N.of_nat 3)%N with 1000%N in Hlt. lia.
Qed.

End KeyNumbers.

(** C1. Backtracking: the address parses to [ipNum] with first key [K];
    the bucket of [K] is missing or starts above [ipNum]; the bucket of
    the key before [K] is in file order and holds a tuple [r] whose range
    covers [ipNum]. Then [lookupIP] steps back one key (the key it goes
    to spells the number of [K] less one), selects that bucket and
    returns the ten result fields of [r]. *)
Theorem lookupIP_backtracks (self : Table) (ipStr K K1 : str) (ipNum : Z)
    (pre post : list IpInfo) (r : IpInfo) (fuel : nat) :
  ipStrToIntAndKey ipStr = Return (Some ipNum, Some K) →
  passedOver (ipDict self) ipNum K →
  prevKey K = Return K1 →
  ipDict self !! KStr K1 = Some (pre ++ r :: post) →
  ascendingDisjoint (pre ++ r :: post) →
  covers r ipNum →
  (2 <= fuel)%nat →
  (∃ v, Py.int K = Some v ∧ (v ≠ -999 → Py.int K1 = Some (v - 1))) ∧
  findChain fuel (ipDict self) ipNum K = Return (pre ++ r :: post) ∧
  lookupIP fuel self ipStr =
    Return (twoLetter r, country r, state r, city r,
            lat r, long r, zip r, timezone r,
            countryPhone r, areaPhone r).
Proof.
  intros Hparse Hpass Hprev Hbucket Hord Hcov Hfuel.
  split.
  - pose proof (ipStrToIntAndKey_keyShape _ _ _ Hparse) as HK.
    destruct (keyShape_int K HK) as [v Hv]. exists v. split; [done|].
    intros Hne. pose proof (keyShape_int_range K v HK Hv) as Hr.
    unfold prevKey in Hprev. rewrite Hv in Hprev. simpl in Hprev.
    injection Hprev as <-. apply int_key4. lia.
  - exact (lookupIP_backtracks_one self ipStr K K1 ipNum pre post r fuel
             Hparse Hpass Hprev Hbucket Hord Hcov Hfuel).
Qed.

(** The address 1.3.102.164 has the key 0017, whose bucket starts above
    it; the Tokyo range of bucket 0016 covers it. *)
Lemma lookupIP_backtracks_witness :
  ipStrToIntAndKey (lit "1.3.102.164") = Return (Some 17000100, Some (lit "0017")) ∧
  prevKey (lit "0017") = Return (lit "0016") ∧
  (∃ v, Py.int (lit "0017") = Some v ∧
        (v ≠ -999 → Py.int (lit "0016") = Some (v - 1))) ∧
  findChain 2 (ipDict sampleTable) 17000100 (lit "0017") =
    Return [infoOf rowBrisbane; infoOf rowFuzhou; infoOf rowTokyo] ∧
  lookupIP 2 sampleTable (lit "1.3.102.164") =
    Return (lit "JP", lit "Japan", lit "Tokyo", lit "Tokyo",
            FDec false 35689506 (-6), FDec false 139691700 (-6),
            lit "100-0001", lit "+09:00", lit "81", lit "03").
Proof.
  split; [reflexivity|]. split; [reflexivity|].
  apply (lookupIP_backtracks sampleTable (lit "1.3.102.164")
           (lit "0017") (lit "0016") 17000100
           [infoOf rowBrisbane; infoOf rowFuzhou] [] (infoOf rowTokyo) 2).
  - reflexivity.
  - right. exists (infoOf rowBangkok), []. split; reflexivity.
  - reflexivity.
  - reflexivity.
  - simpl. lia.
  - unfold covers. simpl. lia.
  - lia.
Defined.

Lemma ipStrToIntAndKey_key_eq ipStr ipNum key :
  ipStrToIntAndKey ipStr = Return (Some ipNum, Some key) →
  key = take 4 (Py.zfill 10 (Py.str_of_int ipNum)).
Proof.
  unfold ipStrToIntAndKey.
  destruct (Py.split "."%char ipStr) as [|o0 [|o1 [|o2 [|o3 [|? ?]]]]];
    try discriminate.
  repeat (case_outcome; try discriminate).
  by intros [= <- <-].
Qed.

Lemma key_number_of_parsed (ipStr key : str) (ipNum : Z) :
  ipStrToIntAndKey ipStr = Return (Some ipNum, Some key) →
  0 <= ipNum < 10 ^ 10 →
  length key = 4%nat ∧ Py.int key = Some (ipNum / 1000000).
Proof.
  intros Hparse [Hlo Hhi].
  rewrite (ipStrToIntAndKey_key_eq _ _ _ Hparse).
  unfold Py.str_of_int. rewrite (proj2 (Z.ltb_ge ipNum 0)) by done.
  assert (Hn : (Z.to_N ipNum < 10 ^ 10)%N) by lia.
  split.
  - rewrite zfill_digits;
      [|apply str_N_nonempty|apply str_N_digits|by apply (str_N_length _ 9)].
    pose proof (str_N_length _ 9 Hn).
    rewrite length_take, length_app, length_replicate. lia.
  - rewrite int_key_of_number by done. f_equal.
    rewrite N2Z.inj_div, Z2N.id by done. reflexivity.
Qed.

(** X1. For an address number from 0 up to ten decimal digits, the
    lookup key [ipStrToIntAndKey] returns has four characters and spells
    the number divided by one million. *)
Theorem ipStrToIntAndKey_key_number (ipStr key : str) (ipNum : Z) :
  ipStrToIntAndKey ipStr = Return (Some ipNum, Some key) →
  0 <= ipNum < 10 ^ 10 →
  length key = 4%nat ∧ Py.int key = Some (ipNum / 1000000).
Proof. apply key_number_of_parsed. Qed.

Lemma ipStrToIntAndKey_key_number_witness :
  Py.int (lit "2873") = Some (2873117536 / 1000000).
Proof.
  apply (ipStrToIntAndKey_key_number (lit "171.64.75.96") (lit "2873") 2873117536).
  - reflexivity.
  - lia.
Defined.

(** X2. Four numerals between 0 and 255 give an address number between
    0 and 4294967295 and a key that spells a number between 0 and 4294. *)
Theorem ipStrToIntAndKey_octet_bounds (ipStr o0 o1 o2 o3 : str) (a b c d : Z) :
  Py.split "."%char ipStr = [o0; o1; o2; o3] →
  Py.int o0 = Some a → Py.int o1 = Some b →
  Py.int o2 = Some c → Py.int o3 = Some d →
  isOctet a → isOctet b → isOctet c → isOctet d →
  ∃ ipNum key q,
    ipStrToIntAndKey ipStr = Return (Some ipNum, Some key) ∧
    0 <= ipNum <= 4294967295 ∧
    Py.int key = Some q ∧ 0 <= q <= 4294.
Proof.
  intros Hs H0 H1 H2 H3 Ha Hb Hc Hd.
  pose proof (ipStrToIntAndKey_four ipStr o0 o1 o2 o3 a b c d Hs H0 H1 H2 H3)
    as Hparse. cbv zeta in Hparse.
  set (ipNum := d + c * 256 + b * 256 * 256 + a * 256 * 256 * 256) in *.
  assert (Hrange : 0 <= ipNum <= 4294967295) by (unfold isOctet, ipNum in *; lia).
  assert (Hten : 0 <= ipNum < 10 ^ 10) by lia.
  destruct (key_number_of_parsed _ _ _ Hparse Hten) as [_ Hkey].
  eexists ipNum, _, (ipNum / 1000000).
  split; [exact Hparse|]. split; [done|]. split; [exact Hkey|].
  split; [apply Z.div_pos; lia|].
  assert (ipNum / 1000000 < 4295) by (apply Z.div_lt_upper_bound; lia).
  lia.
Qed.

Lemma ipStrToIntAndKey_octet_bounds_witness :
  ∃ ipNum key q,
    ipStrToIntAndKey (lit "255.255.255.255") = Return (Some ipNum, Some key) ∧
    0 <= ipNum <= 4294967295 ∧
    Py.int key = Some q ∧ 0 <= q <= 4294.
Proof.
  apply (ipStrToIntAndKey_octet_bounds (lit "255.255.255.255")
           (lit "255") (lit "255") (lit "255") (lit "255") 255 255 255 255);
    try reflexivity; unfold isOctet; lia.
Defined.

(** X3. One turn of backtracking lowers the number the key spells by
    one, for every key except "-999": the keys visited are K, K-1, K-2
    and so on, through zero into the negative numbers. *)
Theorem prevKey_number (k : str) (v : Z) :
  keyShape k → Py.int k = Some v → v ≠ -999 →
  ∃ k', prevKey k = Return k' ∧ Py.int k' = Some (v - 1) ∧ keyShape k'.
Proof.
  intros Hk Hv Hne.
  pose proof (keyShape_int_range k v Hk Hv) as Hr.
  unfold prevKey. rewrite Hv. simpl.
  eexists. split; [reflexivity|]. split.
  - apply int_key4. lia.
  - by apply keyShape_take_zfill.
Qed.

Lemma prevKey_number_witness :
  ∃ k', prevKey (lit "0000") = Return k' ∧ Py.int k' = Some (0 - 1) ∧ keyShape k'.
Proof.
  apply (prevKey_number (lit "0000") 0).
  - left. split; [reflexivity|]. repeat constructor.
  - reflexivity.
  - lia.
Defined.

(** X4. The constructor files a range whose start address is written as
    a plain decimal numeral under the key [ipStrToIntAndKey] computes
    for that address. *)
Theorem hashKeyOf_matches_lookup_key (ipStr key : str) (ipNum : Z) :
  ipStrToIntAndKey ipStr = Return (Some ipNum, Some key) →
  hashKeyOf (Py.str_of_int ipNum) = key.
Proof.
  intros Hparse. rewrite (ipStrToIntAndKey_key_eq _ _ _ Hparse).
  unfold hashKeyOf, Py.strip_quote, Py.strip.
  rewrite strip_by_none; [done|].
  unfold Py.str_of_int. destruct (ipNum <? 0).
  - constructor; [done|].
    eapply Forall_impl; [apply str_N_digits|].
    intros c Hc. apply bool_decide_eq_false. intros Hin.
    apply list_elem_of_singleton in Hin. subst c. vm_compute in Hc. discriminate.
  - eapply Forall_impl; [apply str_N_digits|].
    intros c Hc. apply bool_decide_eq_false. intros Hin.
    apply list_elem_of_singleton in Hin. subst c. vm_compute in Hc. discriminate.
Qed.

Lemma hashKeyOf_matches_lookup_key_witness :
  hashKeyOf (Py.str_of_int 16777216) = lit "0016".
Proof.
  apply (hashKeyOf_matches_lookup_key (lit "1.0.0.0") (lit "0016") 16777216).
  reflexivity.
Defined.

(* ===================================================================== *)
(** ** Further properties of the lookup                                   *)
(* ===================================================================== *)

Section LookupMore.
Import Py.
Implicit Types (d : gmap Key (list IpInfo)) (chain : list IpInfo).

(** The loop follows a path of passed-over keys to the bucket that
    admits the address number. *)
Lemma findChain_backtracks d ipNum k j k' first rest :
  backtracks d ipNum k j k' →
  d !! KStr k' = Some (first :: rest) → startIp first <= ipNum →
  ∀ fuel, (j < fuel)%nat → findChain fuel d ipNum k = Return (first :: rest).
Proof.
  induction 1 as [k|k k1 n k' Hpass Hprev _ IH]; intros Hb Hle fuel Hfuel.
  - destruct fuel as [|fuel]; [lia|]. by apply findChain_break.
  - destruct fuel as [|fuel]; [lia|].
    rewrite (findChain_pass fuel d ipNum k k1) by done.
    apply IH; [done|done|lia].
Qed.

(** What the loop returns is a bucket of the table reached along such a
    path, and its first tuple does not start above the address number. *)
Lemma findChain_sound fuel : ∀ d ipNum k chain,
  findChain fuel d ipNum k = Return chain →
  ∃ j k' first rest,
    (j < fuel)%nat ∧ backtracks d ipNum k j k' ∧
    chain = first :: rest ∧ d !! KStr k' = Some chain ∧
    startIp first <= ipNum.
Proof.
  induction fuel as [|f IH]; intros d ipNum k chain H; [done|].
  simpl in H.
  destruct (d !! KStr k) as [[|first rest]|] eqn:Hb; try done.
  - destruct (startIp first >? ipNum) eqn:Hgt.
    + destruct (prevKey k) as [k1| |] eqn:Hprev; simpl in H; try done.
      destruct (IH _ _ _ _ H) as (j & k' & f1 & r1 & Hj & Hpath & -> & Hb' & Hle).
      exists (S j), k', f1, r1. repeat split; try done; [lia|].
      apply (backtracks_step d ipNum k k1); [|done|done].
      right. exists first, rest. split; [done|]. by apply Z.gtb_gt.
    + injection H as <-. exists 0%nat, k, first, rest.
      repeat split; try done; [lia|constructor|].
      destruct (Z.gtb_spec (startIp first) ipNum); [done|lia].
  - destruct (prevKey k) as [k1| |] eqn:Hprev; simpl in H; try done.
    destruct (IH _ _ _ _ H) as (j & k' & f1 & r1 & Hj & Hpath & -> & Hb' & Hle).
    exists (S j), k', f1, r1. repeat split; try done; [lia|].
    apply (backtracks_step d ipNum k k1); [by left|done|done].
Qed.

(** The loop itself raises nothing but [IndexError], at an empty
    bucket, or the [ValueError] of a key that is not a numeral. *)
Lemma findChain_raise fuel : ∀ d ipNum k e,
  findChain fuel d ipNum k = Raise e → e = IndexError ∨ e = ValueError.
Proof.
  induction fuel as [|f IH]; intros d ipNum k e H; [done|].
  simpl in H.
  destruct (d !! KStr k) as [[|first rest]|] eqn:Hb.
  - injection H as <-. by left.
  - destruct (startIp first >? ipNum); [|done].
    unfold prevKey in H. destruct (int k); simpl in H.
    + by apply IH in H.
    + injection H as <-. by right.
  - unfold prevKey in H. destruct (int k); simpl in H.
    + by apply IH in H.
    + injection H as <-. by right.
Qed.

(** [IndexError] leaves the loop only at an empty bucket with a string
    key. *)
Lemma findChain_IndexError fuel : ∀ d ipNum k,
  findChain fuel d ipNum k = Raise IndexError → ∃ k', d !! KStr k' = Some [].
Proof.
  induction fuel as [|f IH]; intros d ipNum k H; [done|].
  simpl in H.
  destruct (d !! KStr k) as [[|first rest]|] eqn:Hb.
  - by exists k.
  - destruct (startIp first >? ipNum); [|done].
    unfold prevKey in H. destruct (int k); simpl in H; [|done].
    by apply IH in H.
  - unfold prevKey in H. destruct (int k); simpl in H; [|done].
    by apply IH in H.
Qed.

Lemma scanChain_sound ipNum chain : ∀ loc,
  scanChain ipNum chain = Return loc →
  ∃ pre r post,
    chain = pre ++ r :: post ∧ Forall (fun x => endIp x < ipNum) pre ∧
    ipNum <= endIp r ∧ loc = locationOf r.
Proof.
  induction chain as [|x chain IH]; intros loc H; simpl in H; [done|].
  destruct (ipNum >? endIp x) eqn:Hgt.
  - destruct (IH _ H) as (pre & r & post & -> & Hpre & Hr & ->).
    exists (x :: pre), r, post. repeat split; try done.
    constructor; [|done]. apply Z.gtb_gt in Hgt. lia.
  - injection H as <-. exists [], x, chain. repeat split; try done.
    destruct (Z.gtb_spec ipNum (endIp x)); [done|lia].
Qed.

Lemma scanChain_raise ipNum chain : ∀ e,
  scanChain ipNum chain = Raise e →
  e = KeyError ∧ Forall (fun x => endIp x < ipNum) chain.
Proof.
  induction chain as [|x chain IH]; intros e H; simpl in H.
  - injection H as <-. by split.
  - destruct (ipNum >? endIp x) eqn:Hgt; [|done].
    destruct (IH _ H) as [-> Hall]. split; [done|].
    constructor; [|done]. apply Z.gtb_gt in Hgt. lia.
Qed.

(** The three outcomes of [ipStrToIntAndKey]. *)
Lemma ipStrToIntAndKey_outcome ipStr :
  ipStrToIntAndKey ipStr = Return (None, None) ∨
  (∃ ipNum key, ipStrToIntAndKey ipStr = Return (Some ipNum, Some key)) ∨
  ipStrToIntAndKey ipStr = Raise ValueError.
Proof.
  unfold ipStrToIntAndKey.
  destruct (split "."%char ipStr) as [|o0 [|o1 [|o2 [|o3 [|? ?]]]]];
    try (by left).
  destruct (int o3); simpl; [|by right; right].
  destruct (int o2); simpl; [|by right; right].
  destruct (int o1); simpl; [|by right; right].
  destruct (int o0); simpl; [|by right; right].
  right. left. eauto.
Qed.

Lemma lookupIP_not_ValueError_parsed fuel self ipStr :
  lookupIP fuel self ipStr ≠ Raise ValueError →
  ∃ ipNum key, ipStrToIntAndKey ipStr = Return (Some ipNum, Some key).
Proof.
  unfold lookupIP. intros H.
  destruct (ipStrToIntAndKey_outcome ipStr) as [E|[E|E]]; [|done|];
    rewrite E in H; simpl in H; done.
Qed.

End LookupMore.

Lemma lookupIP_backtracks_far_aux (self : Table) (ipStr K K' : str) (ipNum : Z)
    (j fuel : nat) (pre post : list IpInfo) (r : IpInfo) :
  ipStrToIntAndKey ipStr = Return (Some ipNum, Some K) →
  backtracks (ipDict self) ipNum K j K' →
  ipDict self !! KStr K' = Some (pre ++ r :: post) →
  ascendingDisjoint (pre ++ r :: post) →
  covers r ipNum →
  (j < fuel)%nat →
  lookupIP fuel self ipStr = Return (locationOf r).
Proof.
  intros Hparse Hpath Hbucket Hord [Hlo Hhi] Hfuel.
  destruct (ascendingDisjoint_before pre r post Hord) as [Hbefore Hfirst].
  rewrite (lookupIP_parsed _ _ _ ipNum K) by done.
  destruct (pre ++ r :: post) as [|first rest] eqn:E; [by destruct pre|].
  rewrite (findChain_backtracks _ _ _ j K' first rest); try done.
  - cbn [Py.bind]. rewrite <- E. apply scanChain_first; [|done].
    eapply Forall_impl; [exact Hbefore|]. simpl. lia.
  - specialize (Hfirst first rest eq_refl). lia.
Qed.

(** X5. Backtracking over any number of keys: when the loop passes over
    [j] keys from the first key [K] down to [K'], and the bucket of [K']
    is in file order and holds a tuple whose range covers the address
    number, [lookupIP] returns the fields of that tuple as soon as the
    budget exceeds [j]. *)
Theorem lookupIP_backtracks_far (self : Table) (ipStr K K' : str) (ipNum : Z)
    (j fuel : nat) (pre post : list IpInfo) (r : IpInfo) :
  ipStrToIntAndKey ipStr = Return (Some ipNum, Some K) →
  backtracks (ipDict self) ipNum K j K' →
  ipDict self !! KStr K' = Some (pre ++ r :: post) →
  ascendingDisjoint (pre ++ r :: post) →
  covers r ipNum →
  (j < fuel)%nat →
  lookupIP fuel self ipStr =
    Return (twoLetter r, country r, state r, city r,
            lat r, long r, zip r, timezone r,
            countryPhone r, areaPhone r).
Proof. exact (lookupIP_backtracks_far_aux self ipStr K K' ipNum j fuel pre post r). Qed.

(** From key 0018 over the missing buckets 0018 and 0017 to bucket 0016. *)
Lemma lookupIP_backtracks_far_witness :
  lookupIP 3 wideTable (lit "1.18.168.133") =
    Return (lit "JP", lit "Japan", lit "Hokkaido", lit "Sapporo",
            FDec false 43064170 (-6), FDec false 141346940 (-6),
            lit "060-0001", lit "+09:00", lit "81", lit "011").
Proof.
  apply (lookupIP_backtracks_far wideTable (lit "1.18.168.133")
           (lit "0018") (lit "0016") 18000005 2 3
           [infoOf rowBrisbane] [] (infoOf rowSapporo)).
  - reflexivity.
  - apply (backtracks_step _ _ (lit "0018") (lit "0017"));
      [by left | reflexivity |].
    apply (backtracks_step _ _ (lit "0017") (lit "0016"));
      [by left | reflexivity |].
    constructor.
  - reflexivity.
  - simpl. lia.
  - unfold covers. simpl. lia.
  - lia.
Defined.

(** X6. What [lookupIP] returns comes from the table: the address
    parsed, the loop went from its key along passed-over keys to a
    bucket whose first tuple does not start above the address number,
    and the result is the fields of the first tuple of that bucket that
    does not end below the address number. *)
Theorem lookupIP_sound (fuel : nat) (self : Table) (ipStr : str) (loc : Location) :
  lookupIP fuel self ipStr = Return loc →
  ∃ ipNum K j K' first rest pre r post,
    ipStrToIntAndKey ipStr = Return (Some ipNum, Some K) ∧
    (j < fuel)%nat ∧
    backtracks (ipDict self) ipNum K j K' ∧
    ipDict self !! KStr K' = Some (first :: rest) ∧
    startIp first <= ipNum ∧
    first :: rest = pre ++ r :: post ∧
    Forall (fun x => endIp x < ipNum) pre ∧
    ipNum <= endIp r ∧
    loc = (twoLetter r, country r, state r, city r,
           lat r, long r, zip r, timezone r,
           countryPhone r, areaPhone r).
Proof.
  intros H.
  destruct (lookupIP_not_ValueError_parsed fuel self ipStr) as (ipNum & K & Hparse);
    [by rewrite H|].
  rewrite (lookupIP_parsed _ _ _ ipNum K Hparse) in H.
  destruct (findChain fuel (ipDict self) ipNum K) as [chain| |] eqn:Hfind;
    simpl in H; try done.
  destruct (findChain_sound _ _ _ _ _ Hfind)
    as (j & K' & first & rest & Hj & Hpath & -> & Hb & Hle).
  destruct (scanChain_sound _ _ _ H) as (pre & r & post & Hsplit & Hpre & Hr & ->).
  by exists ipNum, K, j, K', first, rest, pre, r, post.
Qed.

Lemma lookupIP_sound_witness :
  ∃ ipNum K j K' first rest pre r post,
    ipStrToIntAndKey (lit "171.64.75.96") = Return (Some ipNum, Some K) ∧
    (j < 1)%nat ∧
    backtracks (ipDict sampleTable) ipNum K j K' ∧
    ipDict sampleTable !! KStr K' = Some (first :: rest) ∧
    startIp first <= ipNum ∧
    first :: rest = pre ++ r :: post ∧
    Forall (fun x => endIp x < ipNum) pre ∧
    ipNum <= endIp r ∧
    (lit "US", lit "United States", lit "California", lit "Stanford",
      FDec false 37421262 (-6), FDec true 122163949 (-6),
      lit "94305", lit "-07:00", lit "1", lit "650")
    = (twoLetter r, country r, state r, city r,
       lat r, long r, zip r, timezone r,
       countryPhone r, areaPhone r).
Proof.
  apply (lookupIP_sound 1 sampleTable (lit "171.64.75.96")
           (lit "US", lit "United States", lit "California", lit "Stanford",
             FDec false 37421262 (-6), FDec true 122163949 (-6),
             lit "94305", lit "-07:00", lit "1", lit "650")).
  reflexivity.
Defined.

(** X7. [lookupIP] raises [KeyError] only when the loop has selected a
    bucket, reached along passed-over keys, all of whose tuples end
    below the address number. *)
Theorem lookupIP_KeyError_only_in_gap (fuel : nat) (self : Table) (ipStr : str) :
  lookupIP fuel self ipStr = Raise KeyError →
  ∃ ipNum K j K' chain,
    ipStrToIntAndKey ipStr = Return (Some ipNum, Some K) ∧
    backtracks (ipDict self) ipNum K j K' ∧
    ipDict self !! KStr K' = Some chain ∧
    Forall (fun x => endIp x < ipNum) chain.
Proof.
  intros H.
  destruct (lookupIP_not_ValueError_parsed fuel self ipStr) as (ipNum & K & Hparse);
    [by rewrite H|].
  rewrite (lookupIP_parsed _ _ _ ipNum K Hparse) in H.
  destruct (findChain fuel (ipDict self) ipNum K) as [chain|e|] eqn:Hfind;
    simpl in H; try done.
  - destruct (findChain_sound _ _ _ _ _ Hfind)
      as (j & K' & first & rest & Hj & Hpath & -> & Hb & Hle).
    destruct (scanChain_raise _ _ _ H) as [_ Hall].
    by exists ipNum, K, j, K', (first :: rest).
  - injection H as ->.
    by destruct (findChain_raise _ _ _ _ _ Hfind).
Qed.

Lemma lookupIP_KeyError_only_in_gap_witness :
  ∃ ipNum K j K' chain,
    ipStrToIntAndKey (lit "1.4.236.229") = Return (Some ipNum, Some K) ∧
    backtracks (ipDict sampleTable) ipNum K j K' ∧
    ipDict sampleTable !! KStr K' = Some chain ∧
    Forall (fun x => endIp x < ipNum) chain.
Proof.
  apply (lookupIP_KeyError_only_in_gap 1 sampleTable (lit "1.4.236.229")).
  reflexivity.
Defined.

Lemma ascendingDisjoint_range pre : ∀ r post,
  ascendingDisjoint (pre ++ r :: post) → startIp r <= endIp r.
Proof.
  induction pre as [|x pre IH]; intros r post H.
  - by destruct H.
  - destruct H as (_ & _ & H). by apply (IH r post).
Qed.

(** X8. In a bucket in file order, an address number in the gap between
    two neighbouring tuples gets the fields of the upper one, whose
    range does not cover it. *)
Theorem lookupIP_gap_returns_next (self : Table) (ipStr key : str) (ipNum : Z)
    (fuel : nat) (pre post : list IpInfo) (a b : IpInfo) :
  ipStrToIntAndKey ipStr = Return (Some ipNum, Some key) →
  findChain fuel (ipDict self) ipNum key = Return (pre ++ a :: b :: post) →
  ascendingDisjoint (pre ++ a :: b :: post) →
  endIp a < ipNum < startIp b →
  lookupIP fuel self ipStr =
    Return (twoLetter b, country b, state b, city b,
            lat b, long b, zip b, timezone b,
            countryPhone b, areaPhone b) ∧
  ¬ covers b ipNum.
Proof.
  intros Hparse Hfind Hord [Hlo Hhi]. split; [|unfold covers; lia].
  rewrite (lookupIP_parsed _ _ _ ipNum key) by done.
  rewrite Hfind. cbn [Py.bind].
  destruct (ascendingDisjoint_before pre a (b :: post) Hord) as [Hbefore _].
  pose proof (ascendingDisjoint_range pre a (b :: post) Hord) as Ha.
  replace (pre ++ a :: b :: post) with ((pre ++ [a]) ++ b :: post) in *
    by by rewrite <- app_assoc.
  pose proof (ascendingDisjoint_range _ _ _ Hord) as Hb.
  refine (scanChain_first ipNum (pre ++ [a]) b post _ _); [|lia].
  apply Forall_app. split.
  - eapply Forall_impl; [exact Hbefore|]. simpl. lia.
  - by constructor.
Qed.

Lemma lookupIP_gap_returns_next_witness :
  lookupIP 1 sampleTable (lit "1.0.1.128") =
    Return (lit "CN", lit "China", lit "Fujian", lit "Fuzhou",
            FDec false 26061390 (-6), FDec false 119306110 (-6),
            lit "350004", lit "+08:00", lit "86", lit "0591") ∧
  ¬ covers (infoOf rowFuzhou) 16777600.
Proof.
  apply (lookupIP_gap_returns_next sampleTable (lit "1.0.1.128") (lit "0016")
           16777600 1 [] [infoOf rowTokyo] (infoOf rowBrisbane) (infoOf rowFuzhou)).
  - reflexivity.
  - reflexivity.
  - simpl. lia.
  - simpl. lia.
Defined.

(* ===================================================================== *)
(** ** Further properties of the constructor                              *)
(* ===================================================================== *)

Section LoaderMore.
Import Py.
Implicit Types (st : Loader) (es : list (str * IpInfo)) (line : list str)
  (lines : list (list str)).

Lemma zfill_length w s : (w <= length (zfill w s))%nat.
Proof.
  unfold zfill. destruct (w <=? length s)%nat eqn:E.
  - by apply Nat.leb_le in E.
  - apply Nat.leb_gt in E. destruct s as [|c s]; simpl.
    + rewrite length_replicate. lia.
    + destruct (is_sign c); simpl; rewrite length_app, length_replicate;
        simpl; lia.
Qed.

Lemma hashKeyOf_length startIPStr : length (hashKeyOf startIPStr) = 4%nat.
Proof.
  unfold hashKeyOf. rewrite length_take.
  pose proof (zfill_length 10 (strip_quote startIPStr)). lia.
Qed.

(** A row yields nothing, an entry, or [ValueError]. *)
Lemma rowEntry_outcome line :
  rowEntry line = Return None ∨
  (∃ k info, rowEntry line = Return (Some (k, info)) ∧ length k = 4%nat) ∨
  rowEntry line = Raise ValueError.
Proof.
  unfold rowEntry. destruct (skipLine line); [by left|].
  do 12 (destruct line as [|? line]; [by left|]).
  destruct line; [|by left].
  unfold makeIpInfo.
  repeat (case_outcome; [|by right; right]).
  right. left. eexists _, _. split; [reflexivity|]. apply hashKeyOf_length.
Qed.

Lemma entries_app lines1 : ∀ lines2,
  entries (lines1 ++ lines2) =
    (es1 <- entries lines1 ;; es2 <- entries lines2 ;; Return (es1 ++ es2)).
Proof.
  induction lines1 as [|line lines1 IH]; intros lines2; simpl.
  - by destruct (entries lines2).
  - destruct (rowEntry line) as [e| |]; simpl; [|done|done].
    rewrite IH.
    destruct (entries lines1) as [es1| |]; simpl; [|done|done].
    destruct (entries lines2) as [es2| |]; simpl; [|done|done].
    by destruct e.
Qed.

(** The rows raise nothing but [ValueError], and the keys of the
    entries have four characters. *)
Lemma entries_outcome lines :
  (∃ es, entries lines = Return es ∧
         Forall (fun e => length e.1 = 4%nat) es) ∨
  entries lines = Raise ValueError.
Proof.
  induction lines as [|line lines IH]; simpl.
  - left. by exists [].
  - destruct (rowEntry_outcome line) as [E|[(k & info & E & Hk)|E]];
      rewrite E; simpl; [| |by right].
    + destruct IH as [(es & -> & Hes)| ->]; simpl; [|by right].
      left. by exists es.
    + destruct IH as [(es & -> & Hes)| ->]; simpl; [|by right].
      left. exists ((k, info) :: es). split; [done|]. by constructor.
Qed.

Lemma pushEntry_bucketsInOrder st e :
  length e.1 = 4%nat →
  bucketsInOrder (ipDict (table st)) →
  bucketsInOrder (ipDict (table (pushEntry st e))).
Proof.
  destruct e as [k info]. intros Hk (H0 & Hz & Hs). simpl in *.
  split; [|split].
  - by rewrite lookup_insert_ne.
  - intros z Hne. rewrite lookup_insert_ne by done. by apply Hz.
  - intros k' chain. destruct (decide (k' = k)) as [->|Hne].
    + rewrite lookup_insert_eq. intros [= <-]. split; [|done].
      intros E. by apply app_eq_nil in E as [_ ?].
    + rewrite lookup_insert_ne by congruence. apply Hs.
Qed.

Lemma foldl_pushEntry_bucketsInOrder es : ∀ st,
  Forall (fun e => length e.1 = 4%nat) es →
  bucketsInOrder (ipDict (table st)) →
  bucketsInOrder (ipDict (table (foldl pushEntry st es))).
Proof.
  induction es as [|e es IH]; intros st Hes Hst; simpl; [done|].
  inversion Hes; subst. apply IH; [done|]. by apply pushEntry_bucketsInOrder.
Qed.

Lemma initial_bucketsInOrder : bucketsInOrder (ipDict (table initial)).
Proof.
  simpl. split; [|split].
  - apply lookup_singleton_eq.
  - intros z Hz. apply lookup_singleton_ne. congruence.
  - intros k chain. by rewrite lookup_singleton_ne.
Qed.

Lemma init_bucketsInOrder lines tbl :
  __init__ lines = Return tbl → bucketsInOrder (ipDict tbl).
Proof.
  rewrite load_entries. intros H.
  destruct (entries_outcome lines) as [(es & E & Hes)|E];
    rewrite E in H; simpl in H; [|done].
  injection H as <-.
  apply foldl_pushEntry_bucketsInOrder; [done|apply initial_bucketsInOrder].
Qed.

(** The side table after a run of entries: the last entry with a code
    decides what is stored under it. *)
Lemma foldl_pushEntry_code_other es : ∀ st code,
  Forall (fun e => twoLetter e.2 ≠ code) es →
  twoLetterKeyedDict (table (foldl pushEntry st es)) !! code =
    twoLetterKeyedDict (table st) !! code.
Proof.
  induction es as [|[k info] es IH]; intros st code H; simpl; [done|].
  inversion H as [|? ? Hx Hes]; subst. rewrite IH by done.
  simpl. by rewrite lookup_insert_ne.
Qed.

End LoaderMore.

(** X9. A table the constructor returns has the seed bucket of the
    [int] key 0, still empty, as its only bucket with an [int] key, and
    every bucket with a [str] key has a key of four characters and at
    least one tuple. *)
Theorem init_buckets_invariant (lines : list (list str)) (tbl : Table) :
  __init__ lines = Return tbl →
  ipDict tbl !! KInt 0 = Some [] ∧
  (∀ z, z ≠ 0 → ipDict tbl !! KInt z = None) ∧
  (∀ k chain, ipDict tbl !! KStr k = Some chain →
     chain ≠ [] ∧ length k = 4%nat).
Proof. apply init_bucketsInOrder. Qed.

Lemma init_buckets_invariant_witness :
  ipDict sampleTable !! KInt 0 = Some [] ∧
  (∀ z, z ≠ 0 → ipDict sampleTable !! KInt z = None) ∧
  (∀ k chain, ipDict sampleTable !! KStr k = Some chain →
     chain ≠ [] ∧ length k = 4%nat).
Proof.
  apply (init_buckets_invariant sampleLines sampleTable). reflexivity.
Defined.

(** X10. On a table the constructor returns, [lookupIP] never raises
    [IndexError] nor [UnboundLocalError]: it returns, raises [KeyError]
    or [ValueError], or does not end; and [get] raises nothing but
    [ValueError]. *)
Theorem lookupIP_on_loaded_table (lines : list (list str)) (tbl : Table)
    (fuel : nat) (ipStr : str) :
  __init__ lines = Return tbl →
  ((∃ loc, lookupIP fuel tbl ipStr = Return loc) ∨
   lookupIP fuel tbl ipStr = Raise KeyError ∨
   lookupIP fuel tbl ipStr = Raise ValueError ∨
   lookupIP fuel tbl ipStr = OutOfFuel) ∧
  (∀ e, get fuel tbl ipStr (@None Location) = Raise e → e = ValueError).
Proof.
  intros Hload.
  destruct (init_bucketsInOrder _ _ Hload) as (_ & _ & Hne).
  assert (Hlook : ∀ e, lookupIP fuel tbl ipStr = Raise e →
                       e = KeyError ∨ e = ValueError).
  { intros e H.
    assert (e = ValueError ∨ e ≠ ValueError) as [->|Hv]
      by (destruct e; auto; right; discriminate); [by right|].
    destruct (lookupIP_not_ValueError_parsed fuel tbl ipStr)
      as (ipNum & K & Hparse); [rewrite H; congruence|].
    rewrite (lookupIP_parsed _ _ _ ipNum K Hparse) in H.
    destruct (findChain fuel (ipDict tbl) ipNum K) as [chain|e'|] eqn:Hfind;
      simpl in H; try done.
    - left. by destruct (scanChain_raise _ _ _ H).
    - injection H as ->.
      destruct (findChain_raise _ _ _ _ _ Hfind) as [->| ->]; [|done].
      destruct (findChain_IndexError _ _ _ _ Hfind) as [k' Hk'].
      by destruct (Hne k' [] Hk'). }
  split.
  - destruct (lookupIP fuel tbl ipStr) as [loc|e|] eqn:E; eauto.
    destruct (Hlook e eq_refl) as [->| ->]; auto.
  - intros e. unfold get.
    destruct (lookupIP fuel tbl ipStr) as [loc|e'|] eqn:E; try done.
    destruct (Hlook e' eq_refl) as [->| ->]; [done|]. by intros [= <-].
Qed.

Lemma lookupIP_on_loaded_table_witness :
  ((∃ loc, lookupIP 5 sampleTable (lit "9.9.9.9") = Return loc) ∨
   lookupIP 5 sampleTable (lit "9.9.9.9") = Raise KeyError ∨
   lookupIP 5 sampleTable (lit "9.9.9.9") = Raise ValueError ∨
   lookupIP 5 sampleTable (lit "9.9.9.9") = OutOfFuel) ∧
  (∀ e, get 5 sampleTable (lit "9.9.9.9") (@None Location) = Raise e →
        e = ValueError).
Proof.
  apply (lookupIP_on_loaded_table sampleLines sampleTable 5 (lit "9.9.9.9")).
  reflexivity.
Defined.

(** X11. On a table the constructor returns, an address number below
    the start of the first tuple of every bucket makes [lookupIP] run
    without end; this is so for every address when the file has no row
    that is kept. *)
Theorem lookupIP_below_all_ranges (lines : list (list str)) (tbl : Table)
    (ipStr key : str) (ipNum : Z) :
  __init__ lines = Return tbl →
  ipStrToIntAndKey ipStr = Return (Some ipNum, Some key) →
  (∀ k first rest, ipDict tbl !! KStr k = Some (first :: rest) →
     ipNum < startIp first) →
  ∀ fuel, lookupIP fuel tbl ipStr = OutOfFuel ∧
          get fuel tbl ipStr (@None Location) = OutOfFuel.
Proof.
  intros Hload Hparse Hbelow fuel.
  destruct (init_bucketsInOrder _ _ Hload) as (_ & _ & Hne).
  assert (H : lookupIP fuel tbl ipStr = OutOfFuel).
  { rewrite (lookupIP_parsed _ _ _ ipNum key) by done.
    rewrite findChain_diverges; [done| |].
    - intros k _. unfold passedOver.
      destruct (ipDict tbl !! KStr k) as [[|first rest]|] eqn:E; [| |by left].
      + by destruct (Hne k [] E).
      + right. exists first, rest. split; [done|].
        specialize (Hbelow k first rest E). lia.
    - by apply (ipStrToIntAndKey_keyShape ipStr ipNum). }
  split; [done|]. unfold get. by rewrite H.
Qed.

(** The empty file. *)
Lemma lookupIP_below_all_ranges_witness :
  lookupIP 1000 (tableOf (__init__ [])) (lit "171.64.75.96") = OutOfFuel ∧
  get 1000 (tableOf (__init__ [])) (lit "171.64.75.96") (@None Location)
    = OutOfFuel.
Proof.
  refine (lookupIP_below_all_ranges [] (tableOf (__init__ []))
            (lit "171.64.75.96") (lit "2873") 2873117536 _ _ _ 1000).
  - reflexivity.
  - reflexivity.
  - intros k first rest H. exfalso.
    change (ipDict (tableOf (__init__ [])))
      with ({[KInt 0 := []]} : gmap Key (list IpInfo)) in H.
    by rewrite lookup_singleton_ne in H.
Defined.

(** X12. The constructor returns a table when no row fails to convert,
    and raises [ValueError] as soon as one row does, wherever it stands
    in the file; it raises nothing else. *)
Theorem init_outcome (lines : list (list str)) :
  (Forall (fun line => rowEntry line ≠ Raise ValueError) lines →
   ∃ tbl, __init__ lines = Return tbl) ∧
  (Exists (fun line => rowEntry line = Raise ValueError) lines →
   __init__ lines = Raise ValueError) ∧
  (∀ e, __init__ lines = Raise e → e = ValueError) ∧
  __init__ lines ≠ OutOfFuel.
Proof.
  rewrite load_entries.
  split; [|split; [|split]].
  - induction 1 as [|line lines Hline _ IH]; simpl; [eauto|].
    destruct (rowEntry_outcome line) as [E|[(k & info & E & _)|E]];
      [| |done]; rewrite E; simpl;
      destruct (entries lines) as [es| |]; simpl in *; eauto;
      by destruct IH.
  - induction 1 as [line lines Hline|line lines _ IH]; simpl.
    + by rewrite Hline.
    + destruct (rowEntry_outcome line) as [E|[(k & info & E & _)|E]];
        rewrite E; simpl; [| |done];
        destruct (entries lines) as [es| |]; simpl in *; done.
  - intros e. destruct (entries_outcome lines) as [(es & -> & _)| ->];
      simpl; [done|]. by intros [= <-].
  - by destruct (entries_outcome lines) as [(es & -> & _)| ->].
Qed.

Lemma init_outcome_witness :
  (∃ tbl, __init__ sampleLines = Return tbl) ∧
  __init__ [rowBrisbane; rowFuzhou; rowBadLat] = Raise ValueError.
Proof.
  split.
  - apply (proj1 (init_outcome sampleLines)).
    repeat constructor; discriminate.
  - apply (proj1 (proj2 (init_outcome [rowBrisbane; rowFuzhou; rowBadLat]))).
    do 2 apply Exists_cons_tl. apply Exists_cons_hd. reflexivity.
Defined.

(** X13. [getBy3LetterCode] is keyed by the two-letter code of the rows:
    on a table the constructor returns it gives the code, country, state
    and city of the last kept row with that code, and raises [KeyError]
    for a code no kept row has. *)
Theorem getBy3LetterCode_last_row (lines : list (list str)) (tbl : Table) :
  __init__ lines = Return tbl →
  ∃ es, entries lines = Return es ∧
    (∀ code, Forall (fun e => twoLetter e.2 ≠ code) es →
       getBy3LetterCode tbl code = Raise KeyError) ∧
    (∀ pre k info post,
       es = pre ++ (k, info) :: post →
       Forall (fun e => twoLetter e.2 ≠ twoLetter info) post →
       getBy3LetterCode tbl (twoLetter info) =
         Return (twoLetter info, country info, state info, city info)).
Proof.
  rewrite load_entries. intros H.
  destruct (entries lines) as [es| |]; simpl in H; try discriminate.
  injection H as <-. exists es. split; [done|]. split.
  - intros code Hes. unfold getBy3LetterCode.
    by rewrite foldl_pushEntry_code_other.
  - intros pre k info post -> Hpost. unfold getBy3LetterCode.
    rewrite foldl_app. cbn [foldl].
    rewrite foldl_pushEntry_code_other by done.
    simpl. by rewrite lookup_insert_eq.
Qed.

Lemma getBy3LetterCode_last_row_witness :
  getBy3LetterCode (tableOf (__init__ [rowBrisbane; rowFuzhou; rowSydney])) (lit "AU")
  = Return (lit "AU", lit "Australia", lit "New South Wales", lit "Sydney").
Proof.
  destruct (getBy3LetterCode_last_row [rowBrisbane; rowFuzhou; rowSydney]
              (tableOf (__init__ [rowBrisbane; rowFuzhou; rowSydney])) eq_refl)
    as (es & Hes & _ & Hlast).
  injection Hes as <-.
  apply (Hlast [(lit "0016", infoOf rowBrisbane); (lit "0016", infoOf rowFuzhou)]
           (lit "0016") (infoOf rowSydney) []).
  - reflexivity.
  - constructor.
Defined.

Lemma rowEntry_comment rest fields :
  rowEntry (("#"%char :: rest) :: fields) = Return None ∨
  rowEntry (("#"%char :: rest) :: fields) = Raise ValueError.
Proof.
  unfold rowEntry. destruct (skipLine _); [by left|].
  do 11 (destruct fields as [|? fields]; [by left|]).
  destruct fields; [|by left].
  right. unfold makeIpInfo. by rewrite int_strip_quote_hash.
Qed.

(** X14. A row whose first field begins with [#] never adds anything to
    the table: the constructor gives what it gives for the file without
    that row, or it raises [ValueError]. *)
Theorem init_comment_row (pre post : list (list str)) (rest : str)
    (fields : list str) :
  __init__ (pre ++ (("#"%char :: rest) :: fields) :: post) = __init__ (pre ++ post) ∨
  __init__ (pre ++ (("#"%char :: rest) :: fields) :: post) = Raise ValueError.
Proof.
  rewrite !load_entries, !entries_app. simpl.
  destruct (entries_outcome pre) as [(es1 & -> & _)| ->]; simpl; [|by right].
  destruct (rowEntry_comment rest fields) as [-> | ->]; simpl; [|by right].
  left. by destruct (entries post).
Qed.

Lemma lookupIP_after_init_aux (lines : list (list str)) (tbl : Table)
    (pre run post : list (str * IpInfo)) (k ipStr : str) (ipNum : Z)
    (before after : list IpInfo) (r : IpInfo) (fuel : nat) :
  __init__ lines = Return tbl →
  entries lines = Return (pre ++ run ++ post) →
  Forall (fun e => e.1 = k) run →
  Forall (fun e => e.1 ≠ k) post →
  (∀ e, last pre = Some e → e.1 ≠ k) →
  run.*2 = before ++ r :: after →
  ascendingDisjoint (run.*2) →
  ipStrToIntAndKey ipStr = Return (Some ipNum, Some k) →
  covers r ipNum →
  (1 <= fuel)%nat →
  lookupIP fuel tbl ipStr = Return (locationOf r).
Proof.
  intros Hload Hes Hrun Hpost Hpre Hsplit Hord Hparse Hcov Hfuel.
  rewrite load_entries, Hes in Hload. simpl in Hload. injection Hload as <-.
  assert (Hne : run ≠ []) by (intros ->; by destruct before).
  assert (Hbucket : ipDict (table (foldl pushEntry initial (pre ++ run ++ post)))
                    !! KStr k = Some (before ++ r :: after)).
  { rewrite !foldl_app, foldl_pushEntry_other by done.
    rewrite <- Hsplit. apply foldl_pushEntry_run; try done.
    destruct (last pre) as [e|] eqn:Hlast.
    - rewrite (foldl_pushEntry_currKey pre initial e Hlast).
      intros [= Heq]. by apply (Hpre e).
    - apply last_None in Hlast as ->. done. }
  rewrite Hsplit in Hord.
  apply (lookupIP_backtracks_far_aux _ ipStr k k ipNum 0 fuel before after r);
    try done; try constructor; lia.
Qed.

(** X16. The constructor and the lookup together: when the kept rows
    with key [k] that the table retains (the last unbroken run of them)
    are in file order, and one of them comes from a row of the file
    whose start and end fields convert to numbers that enclose the
    number of an address with first key [k], [lookupIP] returns the
    fields of that row: its strings with the quotes stripped and its
    latitude and longitude as converted. *)
Theorem lookupIP_after_init (lines : list (list str)) (tbl : Table)
    (pre run post : list (str * IpInfo)) (k ipStr : str) (ipNum : Z)
    (before after : list IpInfo) (r : IpInfo) (fuel : nat)
    (startIPStr endIPStr twoLetterCountry country state city
     latitude longitude zipcode timezone country_phone_code area_code : str)
    (s e : Z) (la lo : Py.floatval) :
  __init__ lines = Return tbl →
  entries lines = Return (pre ++ run ++ post) →
  Forall (fun e => e.1 = k) run →
  Forall (fun e => e.1 ≠ k) post →
  (∀ e, last pre = Some e → e.1 ≠ k) →
  run.*2 = before ++ r :: after →
  ascendingDisjoint (run.*2) →
  In [startIPStr; endIPStr; twoLetterCountry; country; state; city;
     latitude; longitude; zipcode; timezone; country_phone_code; area_code] lines →
  rowEntry [startIPStr; endIPStr; twoLetterCountry; country; state; city;
     latitude; longitude; zipcode; timezone; country_phone_code; area_code] = Return (Some (k, r)) →
  Py.int (Py.strip_quote startIPStr) = Some s →
  Py.int (Py.strip_quote endIPStr) = Some e →
  Py.float latitude = Some la →
  Py.float longitude = Some lo →
  ipStrToIntAndKey ipStr = Return (Some ipNum, Some k) →
  s <= ipNum <= e →
  (1 <= fuel)%nat →
  lookupIP fuel tbl ipStr =
    Return (Py.strip_quote twoLetterCountry, Py.strip_quote country,
            Py.strip_quote state, Py.strip_quote city, la, lo,
            Py.strip_quote zipcode, Py.strip_quote timezone,
            Py.strip_quote country_phone_code, Py.strip_quote area_code).
Proof.
  intros Hload Hes Hrun Hpost Hpre Hsplit Hord _ Hrow Hs He Hla Hlo Hparse
    Hin Hfuel.
  destruct (rowEntry_fields _ _ _ _ _ _ _ _ _ _ _ _ _ _ Hrow)
    as (_ & s' & e' & la' & lo' & Hs' & He' & Hla' & Hlo' & Hr).
  rewrite Hs in Hs'. rewrite He in He'. rewrite Hla in Hla'. rewrite Hlo in Hlo'.
  injection Hs' as <-. injection He' as <-.
  injection Hla' as <-. injection Hlo' as <-.
  assert (Hcov : covers r ipNum) by (subst r; exact Hin).
  rewrite (lookupIP_after_init_aux lines tbl pre run post k ipStr ipNum
             before after r fuel) by done.
  by subst r.
Qed.

(** The address 1.0.0.5 on the sample table, straight from the file. *)
Lemma lookupIP_after_init_witness :
  lookupIP 1 sampleTable (lit "1.0.0.5") =
    Return (lit "AU", lit "Australia", lit "Queensland", lit "Brisbane",
            FDec true 27467940 (-6), FDec false 153028090 (-6),
            lit "4000", lit "+10:00", lit "61", lit "07").
Proof.
  apply (lookupIP_after_init sampleLines sampleTable []
           [(lit "0016", infoOf rowBrisbane); (lit "0016", infoOf rowFuzhou);
            (lit "0016", infoOf rowTokyo)]
           [(lit "0017", infoOf rowBangkok); (lit "2873", infoOf rowStanford)]
           (lit "0016") (lit "1.0.0.5") 16777221
           [] [infoOf rowFuzhou; infoOf rowTokyo] (infoOf rowBrisbane) 1
           (lit "16777216") (lit "16777471") (lit "AU") (lit "Australia")
           (lit "Queensland") (lit "Brisbane") (lit "-27.467940")
           (lit "153.028090") (lit "4000") (lit "+10:00") (lit "61") (lit "07")
           16777216 16777471
           (FDec true 27467940 (-6)) (FDec false 153028090 (-6))).
  - reflexivity.
  - reflexivity.
  - repeat constructor.
  - repeat constructor; discriminate.
  - intros e H. discriminate H.
  - reflexivity.
  - simpl. lia.
  - left. reflexivity.
  - reflexivity.
  - reflexivity.
  - reflexivity.
  - reflexivity.
  - reflexivity.
  - reflexivity.
  - lia.
  - lia.
Defined.

(** The Fuzhou row after the Brisbane row: both have the key 0016. *)
Lemma loadLine_appends_one_witness :
  ∃ st',
    loadLine (pushEntry initial (lit "0016", infoOf rowBrisbane)) rowFuzhou
      = Return st' ∧
    ipDict (table st') !! KStr (lit "0016") =
      Some [mkIpInfo 16777216 16777471 (lit "AU") (lit "Australia")
              (lit "Queensland") (lit "Brisbane")
              (FDec true 27467940 (-6)) (FDec false 153028090 (-6))
              (lit "4000") (lit "+10:00") (lit "61") (lit "07");
            mkIpInfo 16778240 16779263 (lit "CN") (lit "China")
              (lit "Fujian") (lit "Fuzhou")
              (FDec false 26061390 (-6)) (FDec false 119306110 (-6))
              (lit "350004") (lit "+08:00") (lit "86") (lit "0591")].
Proof.
  destruct (loadLine_appends_one
              (pushEntry initial (lit "0016", infoOf rowBrisbane))
              (lit "16778240") (lit "16779263") (lit "CN") (lit "China")
              (lit "Fujian") (lit "Fuzhou") (lit "26.061390")
              (lit "119.306110") (lit "350004") (lit "+08:00") (lit "86")
              (lit "0591") 16778240 16779263
              (FDec false 26061390 (-6)) (FDec false 119306110 (-6))
              eq_refl eq_refl eq_refl eq_refl eq_refl
              (pushEntry_currentBucketExists _ _))
    as (st' & Hload & Hsame & _ & _).
  exists st'. split; [exact Hload|].
  destruct (Hsame eq_refl) as (old & Hold & Hnew).
  injection Hold as <-. exact Hnew.
Defined.

(** X17. [ipStrToIntAndKey] returns the pair of two [None] exactly when
    the string does not split into four components; otherwise it
    returns a number together with a key, or raises [ValueError]. It
    never returns a pair with one [None]. *)
Theorem ipStrToIntAndKey_cases (ipStr : str) :
  (ipStrToIntAndKey ipStr = Return (None, None) ↔
   length (Py.split "."%char ipStr) ≠ 4%nat) ∧
  (length (Py.split "."%char ipStr) = 4%nat →
   (∃ ipNum key, ipStrToIntAndKey ipStr = Return (Some ipNum, Some key)) ∨
   ipStrToIntAndKey ipStr = Raise ValueError) ∧
  (∀ a b, ipStrToIntAndKey ipStr = Return (a, b) → is_Some a ↔ is_Some b).
Proof.
  split; [split|split].
  - intros H Hlen. unfold ipStrToIntAndKey in H.
    destruct (Py.split "."%char ipStr) as [|o0 [|o1 [|o2 [|o3 [|? ?]]]]];
      try discriminate Hlen.
    repeat (case_outcome; try discriminate).
  - apply ipStrToIntAndKey_not_four.
  - intros Hlen.
    destruct (ipStrToIntAndKey_outcome ipStr) as [E|[E|E]]; auto.
    exfalso. unfold ipStrToIntAndKey in E.
    destruct (Py.split "."%char ipStr) as [|o0 [|o1 [|o2 [|o3 [|? ?]]]]];
      try discriminate Hlen.
    repeat (case_outcome; try discriminate).
  - intros a b H.
    destruct (ipStrToIntAndKey_outcome ipStr) as [E|[(n & k & E)|E]];
      rewrite E in H; try discriminate; injection H as <- <-.
    + split; intros [? ?]; discriminate.
    + split; eauto.
Qed.

Section Termination.
Import Py.

Lemma digit_val_inj c1 c2 :
  is_digit c1 = true → is_digit c2 = true →
  digit_val c1 = digit_val c2 → c1 = c2.
Proof.
  unfold is_digit, digit_val. intros H1 H2 Hv.
  apply andb_true_iff in H1 as [H1 _]. apply andb_true_iff in H2 as [H2 _].
  apply N.leb_le in H1. apply N.leb_le in H2.
  rewrite <- (ascii_N_embedding c1), <- (ascii_N_embedding c2).
  f_equal. lia.
Qed.

(** Two numerals of the same length and value are the same string. *)
Lemma digits_value_inj s : ∀ t v,
  Forall (fun c => is_digit c = true) s →
  Forall (fun c => is_digit c = true) t →
  length s = length t →
  digits_value 0 s = Some v → digits_value 0 t = Some v → s = t.
Proof.
  induction s as [|c s IH] using rev_ind; intros t v Hs Ht Hlen Hvs Hvt.
  - destruct t; [done|discriminate].
  - destruct t as [|d t _] using rev_ind.
    { rewrite length_app in Hlen. simpl in Hlen. lia. }
    apply Forall_app in Hs as [Hs Hc]. apply Forall_app in Ht as [Ht Hd].
    inversion Hc as [|? ? Hc' _]; subst. inversion Hd as [|? ? Hd' _]; subst.
    rewrite !length_app in Hlen. simpl in Hlen.
    rewrite digits_value_app in Hvs, Hvt.
    destruct (digits_value 0 s) as [vs|] eqn:Es; [|done].
    destruct (digits_value 0 t) as [vt|] eqn:Et; [|done].
    simpl in Hvs, Hvt. rewrite Hc' in Hvs. rewrite Hd' in Hvt.
    injection Hvs as Hvs. injection Hvt as Hvt.
    assert (digit_val c < 10 ∧ digit_val d < 10)%N as [Hcl Hdl].
    { unfold is_digit, digit_val in *.
      apply andb_true_iff in Hc' as [_ Hc']. apply andb_true_iff in Hd' as [_ Hd'].
      apply N.leb_le in Hc'. apply N.leb_le in Hd'. lia. }
    assert (vs = vt ∧ digit_val c = digit_val d) as [-> Hcd] by lia.
    f_equal.
    + apply (IH t vt); try done. lia.
    + f_equal. by apply digit_val_inj.
Qed.

(** A key of four digits is the key of the number it spells. *)
Lemma four_digit_key k v :
  length k = 4%nat → Forall (fun c => is_digit c = true) k →
  int k = Some v →
  0 <= v <= 9999 ∧ k = take 4 (zfill 4 (str_of_int v)).
Proof.
  intros Hlen Hd Hv.
  assert (Hr : -999 <= v <= 9999) by (apply (keyShape_int_range k); [by left|done]).
  rewrite int_digits in Hv; [|by destruct k|done].
  unfold parse_digits in Hv.
  destruct (digits_value 0 k) as [w|] eqn:E; [|by destruct k].
  assert (Hw : v = Z.of_N w) by (destruct k; [done|]; by injection Hv).
  split; [lia|].
  unfold str_of_int. rewrite (proj2 (Z.ltb_ge v 0)) by lia.
  assert (Hl : (length (str_N (Z.to_N v)) <= 4)%nat)
    by (apply str_N_length; simpl; lia).
  rewrite zfill_digits; [|apply str_N_nonempty|apply str_N_digits|done].
  rewrite take_ge by (rewrite length_app, length_replicate; lia).
  apply (digits_value_inj k _ w); try done.
  - apply Forall_app; split; [by apply Forall_replicate|apply str_N_digits].
  - rewrite length_app, length_replicate. lia.
  - rewrite digits_value_zeros.
    pose proof (parse_digits_str_N (Z.to_N v)) as Hp.
    unfold parse_digits in Hp. pose proof (str_N_nonempty (Z.to_N v)).
    destruct (str_N (Z.to_N v)); [done|]. rewrite Hp. f_equal. lia.
Qed.

Lemma key4_four_digits v :
  0 <= v <= 9999 →
  length (take 4 (zfill 4 (str_of_int v))) = 4%nat ∧
  Forall (fun c => is_digit c = true) (take 4 (zfill 4 (str_of_int v))).
Proof.
  intros Hv. unfold str_of_int. rewrite (proj2 (Z.ltb_ge v 0)) by lia.
  assert (Hl : (length (str_N (Z.to_N v)) <= 4)%nat)
    by (apply str_N_length; simpl; lia).
  rewrite zfill_digits; [|apply str_N_nonempty|apply str_N_digits|done].
  split.
  - rewrite length_take, length_app, length_replicate. lia.
  - apply Forall_take, Forall_app; split;
      [by apply Forall_replicate|apply str_N_digits].
Qed.

(** The loop ends at the latest at a bucket that admits the address
    number, after as many turns as the key numbers are apart. *)
Lemma findChain_reaches (d : gmap Key (list IpInfo)) (ipNum : Z)
    (k' : str) (v' : Z) (first : IpInfo) (rest : list IpInfo) :
  (∀ k, d !! KStr k ≠ Some []) →
  length k' = 4%nat → Forall (fun c => is_digit c = true) k' →
  int k' = Some v' →
  d !! KStr k' = Some (first :: rest) → startIp first <= ipNum →
  ∀ n K v,
    length K = 4%nat → Forall (fun c => is_digit c = true) K →
    int K = Some v → v = v' + Z.of_nat n →
    ∃ fuel chain, (fuel <= S n)%nat ∧ findChain fuel d ipNum K = Return chain.
Proof.
  intros Hne Hlen' Hd' Hv' Hb Hle.
  destruct (four_digit_key k' v' Hlen' Hd' Hv') as [Hr' Hk'].
  induction n as [|n IH]; intros K v Hlen Hd Hv Hn.
  - destruct (four_digit_key K v Hlen Hd Hv) as [_ HK].
    assert (K = k') as -> by (rewrite HK, Hk'; f_equal; f_equal; f_equal; lia).
    exists 1%nat, (first :: rest). split; [lia|]. by apply findChain_break.
  - destruct (four_digit_key K v Hlen Hd Hv) as [Hr HK].
    destruct (d !! KStr K) as [[|f r]|] eqn:E.
    + by destruct (Hne K).
    + destruct (Z_le_gt_dec (startIp f) ipNum) as [Hok|Hgt].
      * exists 1%nat, (f :: r). split; [lia|]. by apply findChain_break.
      * destruct (key4_four_digits (v - 1)) as [Hl1 Hd1]; [lia|].
        destruct (IH (take 4 (zfill 4 (str_of_int (v - 1)))) (v - 1))
          as (fuel & chain & Hf & Hfind); try done;
          [apply int_key4; lia | lia |].
        exists (S fuel), chain. split; [lia|].
        rewrite (findChain_pass fuel d ipNum K
                   (take 4 (zfill 4 (str_of_int (v - 1))))); [done| |].
        -- right. by exists f, r.
        -- unfold prevKey. by rewrite Hv.
    + destruct (key4_four_digits (v - 1)) as [Hl1 Hd1]; [lia|].
      destruct (IH (take 4 (zfill 4 (str_of_int (v - 1)))) (v - 1))
        as (fuel & chain & Hf & Hfind); try done;
        [apply int_key4; lia | lia |].
      exists (S fuel), chain. split; [lia|].
      rewrite (findChain_pass fuel d ipNum K
                 (take 4 (zfill 4 (str_of_int (v - 1))))); [done| |].
      * by left.
      * unfold prevKey. by rewrite Hv.
Qed.

End Termination.

Lemma parsed_key_digits ipStr ipNum key :
  ipStrToIntAndKey ipStr = Return (Some ipNum, Some key) →
  0 <= ipNum →
  Forall (fun c => Py.is_digit c = true) key.
Proof.
  intros Hparse Hlo. rewrite (ipStrToIntAndKey_key_eq _ _ _ Hparse).
  unfold Py.str_of_int. rewrite (proj2 (Z.ltb_ge ipNum 0)) by done.
  pose proof (str_N_digits (Z.to_N ipNum)) as Hd.
  pose proof (str_N_nonempty (Z.to_N ipNum)) as Hne.
  apply Forall_take. unfold Py.zfill.
  destruct (10 <=? length (Py.str_N (Z.to_N ipNum)))%nat; [done|].
  destruct (Py.str_N (Z.to_N ipNum)) as [|c s]; [done|].
  inversion Hd as [|? ? Hc _]; subst.
  rewrite (is_digit_not_sign c Hc).
  apply Forall_app; split; [by apply Forall_replicate|done].
Qed.

(** X18. Termination with a bound: on a table the constructor returns,
    for an address number from 0 up to ten decimal digits, if some
    bucket whose key spells a number not above the number of the first
    key admits the address number (its first tuple does not start above
    it), then [lookupIP] ends, with a result or with [KeyError], within
    one turn more than the two key numbers are apart. *)
Theorem lookupIP_terminates (lines : list (list str)) (tbl : Table)
    (ipStr K k' : str) (ipNum v' : Z) (first : IpInfo) (rest : list IpInfo) :
  __init__ lines = Return tbl →
  ipStrToIntAndKey ipStr = Return (Some ipNum, Some K) →
  0 <= ipNum < 10 ^ 10 →
  ipDict tbl !! KStr k' = Some (first :: rest) →
  startIp first <= ipNum →
  Forall (fun c => Py.is_digit c = true) k' →
  Py.int k' = Some v' →
  v' <= ipNum / 1000000 →
  ∃ fuel, (fuel <= S (Z.to_nat (ipNum / 1000000 - v')))%nat ∧
    ((∃ loc, lookupIP fuel tbl ipStr = Return loc) ∨
     lookupIP fuel tbl ipStr = Raise KeyError).
Proof.
  intros Hload Hparse Hrange Hb Hle Hd' Hv' Hbelow.
  destruct (init_bucketsInOrder _ _ Hload) as (_ & _ & Hinv).
  destruct (Hinv k' _ Hb) as [_ Hlen'].
  destruct (key_number_of_parsed _ _ _ Hparse Hrange) as [HlenK HvK].
  pose proof (parsed_key_digits _ _ _ Hparse (proj1 Hrange)) as HdK.
  destruct (findChain_reaches (ipDict tbl) ipNum k' v' first rest)
    with (n := Z.to_nat (ipNum / 1000000 - v')) (K := K) (v := ipNum / 1000000)
    as (fuel & chain & Hfuel & Hfind); try done.
  - intros k E. by destruct (Hinv k [] E).
  - lia.
  - exists fuel. split; [done|].
    rewrite (lookupIP_parsed _ _ _ ipNum K Hparse), Hfind. cbn [Py.bind].
    destruct (scanChain ipNum chain) as [loc|e|] eqn:Hscan.
    + left. by exists loc.
    + right. by destruct (scanChain_raise _ _ _ Hscan) as [-> _].
    + exfalso. clear -Hscan. induction chain as [|x chain IH]; simpl in Hscan;
        [done|]. destruct (ipNum >? endIp x); [by apply IH|done].
Qed.

(** The address 100.0.0.5 lies above every range of the keys 0016 and
    0017 and below the Stanford range: the loop walks from key 1677
    down to key 0017. *)
Lemma lookupIP_terminates_witness :
  ∃ fuel, (fuel <= S (Z.to_nat (1677721605 / 1000000 - 17)))%nat ∧
    ((∃ loc, lookupIP fuel sampleTable (lit "100.0.0.5") = Return loc) ∨
     lookupIP fuel sampleTable (lit "100.0.0.5") = Raise KeyError).
Proof.
  apply (lookupIP_terminates sampleLines sampleTable (lit "100.0.0.5")
           (lit "1677") (lit "0017") 1677721605 17 (infoOf rowBangkok) []).
  - reflexivity.
  - reflexivity.
  - lia.
  - reflexivity.
  - simpl. lia.
  - repeat constructor.
  - reflexivity.
  - vm_compute. discriminate.
Defined.

Lemma ipStrToIntAndKey_cases_witness :
  ipStrToIntAndKey (lit "1.2.3") = Return (None, None) ∧
  ((∃ ipNum key, ipStrToIntAndKey (lit "1.2.3.x") = Return (Some ipNum, Some key)) ∨
   ipStrToIntAndKey (lit "1.2.3.x") = Raise ValueError).
Proof.
  split.
  - apply (proj2 (proj1 (ipStrToIntAndKey_cases (lit "1.2.3")))).
    vm_compute. lia.
  - apply (proj1 (proj2 (ipStrToIntAndKey_cases (lit "1.2.3.x")))).
    reflexivity.
Defined.
